(** * SecureWatch SIEM: the AI security-analyst conversation engine

    A shallow embedding of the parts of [server/routes.ts] and
    [server/storage.ts] that implement the conversation engine: the
    response sanitizer [sanitizeAiResponse], the context selection of
    the two analysis endpoints, the chat-message store and the
    [/api/ai/analyze] and [/api/ai/quick-analyze] handlers. *)

From Stdlib Require Import List NArith ZArith Bool Arith Lia.
From Stdlib Require Import Ascii String.
From Stdlib Require Import Sorting.Sorted Sorting.Permutation.
Import ListNotations.

Set Implicit Arguments.
Set Warnings "-register-all".

(** ** JavaScript strings

    A JavaScript string is a sequence of UTF-16 code units; [length],
    [slice], [split] and the regular-expression engine all work on code
    units. *)

Definition jsstring := list N.

Definition js (s : string) : jsstring :=
  List.map N_of_ascii (list_ascii_of_string s).

Module Js.

(** [!!s] for a string: the empty string is falsy. *)
Definition truthy (s : jsstring) : bool :=
  match s with [] => false | _ :: _ => true end.

(** [!!v] for a value that may be [null] or [undefined]. *)
Definition truthy_opt (v : option jsstring) : bool :=
  match v with None => false | Some s => truthy s end.

Definition str_eqb (a b : jsstring) : bool :=
  if list_eq_dec N.eq_dec a b then true else false.

(** [s.slice(0, e)]: a negative [e] counts from the end of [s]. *)
Definition slice0 {A} (s : list A) (e : Z) : list A :=
  let len := Z.of_nat (List.length s) in
  let to := if (e <? 0)%Z then Z.max (len + e) 0 else Z.min e len in
  firstn (Z.to_nat to) s.

(** [a.slice(-n)]: the last [n] elements. *)
Definition slice_last {A} (n : nat) (a : list A) : list A :=
  skipn (List.length a - n) a.

(** [s.substring(b, e)] for [b <= e]. *)
Definition substring (b e : nat) (s : jsstring) : jsstring :=
  firstn (e - b) (skipn b s).

(** [s.split(sep)] for a one-code-unit separator. *)
Fixpoint split (sep : N) (s : jsstring) : list jsstring :=
  match s with
  | [] => [[]]
  | c :: s' =>
      if N.eqb c sep then [] :: split sep s'
      else match split sep s' with
           | [] => [[c]]
           | w :: ws => (c :: w) :: ws
           end
  end.

(** [a.join(sep)]. *)
Fixpoint join (sep : jsstring) (a : list jsstring) : jsstring :=
  match a with
  | [] => []
  | [w] => w
  | w :: ws => w ++ sep ++ join sep ws
  end.

End Js.

(** ** Regular expressions

    The backtracking matcher of ECMAScript regular expressions, for the
    constructs the sanitizer's patterns use.  A matcher maps a state to
    the list of states it can end in, in the order in which backtracking
    tries them; the first one is the match.  All the sanitizer's
    patterns carry the flags [gi]: characters are compared after
    canonicalization, and replacement is global. *)

Module Regex.

Inductive citem : Type :=
| CChar (c : N)        (* a literal class member *)
| CWord                (* \w *)
| CSpace.              (* \s *)

Inductive regex : Type :=
| Eps
| Chr (c : N)                          (* a pattern character *)
| Cls (neg : bool) (items : list citem)(* [...] and [^...], \w, \s *)
| WordB                                (* \b *)
| Seq (a b : regex)
| Alt (a b : regex)
| Star (a : regex)                     (* greedy a* *)
| Group (k : nat) (a : regex)          (* capturing group number k *)
| Backref (k : nat)                    (* \k *)
| NegLook (a : regex).                 (* (?!a) *)

(** [a+] *)
Definition Plus (a : regex) : regex := Seq a (Star a).

(** A literal string of pattern characters. *)
Fixpoint Lit (l : jsstring) : regex :=
  match l with
  | [] => Eps
  | [c] => Chr c
  | c :: l' => Seq (Chr c) (Lit l')
  end.

(** Canonicalize of the [i] flag without the [u] flag.  On ASCII it
    upper-cases; a code unit from 128 on is never mapped to an ASCII
    one, so against ASCII pattern characters it compares as itself. *)
Definition canon (c : N) : N :=
  if ((97 <=? c) && (c <=? 122))%N then (c - 32)%N else c.

(** WordCharacters: [A-Za-z0-9_]. *)
Definition is_word (c : N) : bool :=
  (((65 <=? c) && (c <=? 90)) || ((97 <=? c) && (c <=? 122))
   || ((48 <=? c) && (c <=? 57)) || (c =? 95))%N.

(** WhiteSpace and LineTerminator code points. *)
Definition is_space (c : N) : bool :=
  (((9 <=? c) && (c <=? 13)) || (c =? 32) || (c =? 160) || (c =? 5760)
   || ((8192 <=? c) && (c <=? 8202)) || (c =? 8232) || (c =? 8233)
   || (c =? 8239) || (c =? 8287) || (c =? 12288) || (c =? 65279))%N.

Definition item_has (ch : N) (it : citem) : bool :=
  match it with
  | CChar c => N.eqb (canon c) (canon ch)
  | CWord => is_word ch
  | CSpace => is_space ch
  end.

Definition cls_has (neg : bool) (items : list citem) (ch : N) : bool :=
  xorb neg (existsb (item_has ch) items).

(** The match state: the end index and the captures made so far. *)
Record mstate : Type := MState {
  pos : nat;
  caps : list (nat * (nat * nat))
}.

Definition init (i : nat) : mstate := MState i [].

Definition step (st : mstate) : mstate := MState (S (pos st)) (caps st).

Fixpoint get_cap (k : nat) (cs : list (nat * (nat * nat)))
  : option (nat * nat) :=
  match cs with
  | [] => None
  | (k', be) :: cs' => if Nat.eqb k k' then Some be else get_cap k cs'
  end.

Definition word_at (s : jsstring) (i : nat) : bool :=
  match nth_error s i with Some c => is_word c | None => false end.

(** IsWordChar(e - 1) differs from IsWordChar(e). *)
Definition at_boundary (s : jsstring) (e : nat) : bool :=
  let a := match e with 0 => false | S e' => word_at s e' end in
  xorb a (word_at s e).

Fixpoint same_canon (a b : jsstring) : bool :=
  match a, b with
  | [], [] => true
  | x :: a', y :: b' => N.eqb (canon x) (canon y) && same_canon a' b'
  | _, _ => false
  end.

(** One greedy iteration after another; an iteration that consumes
    nothing is rejected, as RepeatMatcher does. *)
Fixpoint star_loop (body : mstate -> list mstate) (n : nat) (st : mstate)
  : list mstate :=
  match n with
  | 0 => [st]
  | S n' =>
      flat_map (fun st' => if Nat.eqb (pos st') (pos st) then []
                           else star_loop body n' st') (body st)
      ++ [st]
  end.

Fixpoint m (r : regex) (s : jsstring) (st : mstate) {struct r}
  : list mstate :=
  match r with
  | Eps => [st]
  | Chr c =>
      match nth_error s (pos st) with
      | Some ch => if N.eqb (canon c) (canon ch) then [step st] else []
      | None => []
      end
  | Cls neg items =>
      match nth_error s (pos st) with
      | Some ch => if cls_has neg items ch then [step st] else []
      | None => []
      end
  | WordB => if at_boundary s (pos st) then [st] else []
  | Seq a b => flat_map (m b s) (m a s st)
  | Alt a b => m a s st ++ m b s st
  | Star a => star_loop (m a s) (S (List.length s - pos st)) st
  | Group k a =>
      List.map (fun st' => MState (pos st') ((k, (pos st, pos st')) :: caps st'))
               (m a s st)
  | Backref k =>
      match get_cap k (caps st) with
      | None => [st]
      | Some (b, e) =>
          let w := Js.substring b e s in
          let len := e - b in
          if Nat.leb (pos st + len) (List.length s)
             && same_canon w (Js.substring (pos st) (pos st + len) s)
          then [MState (pos st + len) (caps st)] else []
      end
  | NegLook a =>
      match m a s st with
      | [] => [st]
      | _ :: _ => []
      end
  end.

(** The matcher run at index [i]: the end index of the match. *)
Definition exec_at (r : regex) (s : jsstring) (i : nat) : option nat :=
  match m r s (init i) with
  | [] => None
  | st :: _ => Some (pos st)
  end.

(** RegExpBuiltinExec from [lastIndex = i]: the first index from [i]
    to the end of [s] where the matcher succeeds. *)
Fixpoint search_from (r : regex) (s : jsstring) (n i : nat)
  : option (nat * nat) :=
  match exec_at r s i with
  | Some e => Some (i, e)
  | None =>
      match n with
      | 0 => None
      | S n' => search_from r s n' (S i)
      end
  end.

Definition search (r : regex) (s : jsstring) (i : nat) : option (nat * nat) :=
  if Nat.leb i (List.length s) then search_from r s (List.length s - i) i
  else None.

(** [s.replace(/r/g, rep)] for a replacement without [$]: every match
    from [lastIndex] on is replaced; after an empty match [lastIndex]
    advances by one. *)
Fixpoint replace_loop (r : regex) (rep s : jsstring)
         (n lastIndex nextSrc : nat) : jsstring :=
  match n with
  | 0 => skipn nextSrc s
  | S n' =>
      match search r s lastIndex with
      | None => skipn nextSrc s
      | Some (b, e) =>
          Js.substring nextSrc b s ++ rep
          ++ replace_loop r rep s n' (if Nat.eqb e b then S e else e) e
      end
  end.

Definition replace_all (r : regex) (rep s : jsstring) : jsstring :=
  replace_loop r rep s (S (S (List.length s))) 0 0.

End Regex.

Import Regex.

(** ** The response sanitizer ([server/routes.ts]) *)

Definition NotLt : regex := Cls true [CChar 60].
Definition Ws : regex := Star (Cls false [CSpace]).

(** The script and iframe patterns, flags gi: the opening "<tag" at a
    word boundary, a run of characters other than "<", then any number
    of "<"-led runs none of which starts the closing tag (a negative
    lookahead), then the closing tag. *)
Definition block_re (tag : string) : regex :=
  let close := Lit (js ("</" ++ tag ++ ">")) in
  Seq (Lit (js ("<" ++ tag)))
   (Seq WordB
    (Seq (Star NotLt)
     (Seq (Star (Seq (NegLook close) (Seq (Chr 60) (Star NotLt))))
          close))).

Definition script_re : regex := block_re "script".
Definition iframe_re : regex := block_re "iframe".

(** The pattern "javascript\s*:" with flags gi. *)
Definition jsurl_re : regex :=
  Seq (Lit (js "javascript")) (Seq Ws (Chr 58)).

(** The pattern "data\s*:\s*(text\/html|application\/javascript)" with
    flags gi. *)
Definition dataurl_re : regex :=
  Seq (Lit (js "data"))
   (Seq Ws (Seq (Chr 58) (Seq Ws
     (Group 1 (Alt (Lit (js "text/html"))
                   (Lit (js "application/javascript"))))))).

(** The common head "\bon\w+\s*=\s*" of the two event-handler patterns. *)
Definition handler_head : list regex :=
  [WordB; Lit (js "on"); Plus (Cls false [CWord]); Ws; Chr 61; Ws].

Fixpoint seq_of (l : list regex) (last : regex) : regex :=
  match l with
  | [] => last
  | a :: l' => Seq a (seq_of l' last)
  end.

(** The head followed by a quote (single or double, captured as group
    1), any run of characters that are not quotes, and "\1"; flags gi. *)
Definition handler_quoted_re : regex :=
  seq_of handler_head
    (Seq (Group 1 (Cls false [CChar 39; CChar 34]))
      (Seq (Star (Cls true [CChar 39; CChar 34])) (Backref 1))).

(** The head followed by "[^\s>]*"; flags gi. *)
Definition handler_bare_re : regex :=
  seq_of handler_head (Star (Cls true [CSpace; CChar 62])).

Definition fallback : jsstring :=
  js "I apologize, but I was unable to generate a response. Please try again.".

Definition sanitizeAiResponse (response : option jsstring) (maxLength : Z)
  : jsstring :=
  match response with
  | None => fallback
  | Some [] => fallback
  | Some response =>
      let sanitized := Js.slice0 response maxLength in
      let sanitized := replace_all script_re (js "[removed script]") sanitized in
      let sanitized := replace_all iframe_re (js "[removed iframe]") sanitized in
      let sanitized := replace_all jsurl_re (js "javascript-blocked:") sanitized in
      let sanitized := replace_all dataurl_re (js "data-blocked:") sanitized in
      let sanitized := replace_all handler_quoted_re [] sanitized in
      let sanitized := replace_all handler_bare_re [] sanitized in
      sanitized
  end.

(** The default [maxLength = 8000]. *)
Definition sanitize (response : option jsstring) : jsstring :=
  sanitizeAiResponse response 8000.


(** ** The data model ([shared/schema.ts]) *)

(** A JSON value, for [jsonb] columns and for what [JSON.stringify] is
    applied to. *)
Inductive Json : Type :=
| JNull
| JStr (s : jsstring)
| JNum (n : Z)
| JArr (l : list Json)
| JObj (fields : list (string * Json)).

Definition JOpt (v : option jsstring) : Json :=
  match v with None => JNull | Some s => JStr s end.

Module Event.
(** A row of [security_events], with the columns the engine reads. *)
Record t : Type := Make {
  id : jsstring;
  timestamp : Z;
  eventType : jsstring;
  severity : jsstring;
  source : jsstring;
  destination : option jsstring;
  user : option jsstring;
  description : jsstring;
  action : option jsstring;
  status : option jsstring;
  category : option jsstring;
  ruleName : option jsstring;
  tactic : option jsstring;
  technique : option jsstring;
  rawLog : option jsstring;
  metadata : Json
}.
End Event.
Definition SecurityEvent : Type := Event.t.

(** The [filters] object of a request. *)
Record Filters : Type := {
  f_severity : option jsstring;
  f_eventType : option jsstring;
  f_source : option jsstring;
  f_category : option jsstring
}.

(** The [context] stored with a chat message. *)
Record MessageContext : Type := {
  ctx_eventIds : list jsstring;
  ctx_filters : option Filters
}.

Module Msg.
(** [InsertAiChatMessage]: a row of [ai_chat_messages] without [id]
    and [timestamp]. *)
Record insert : Type := Insert {
  i_sessionId : jsstring;
  i_userId : option jsstring;
  i_role : jsstring;
  i_content : jsstring;
  i_context : option MessageContext;
  i_tokenCount : option N
}.

(** [AiChatMessage]: a row of [ai_chat_messages]. *)
Record t : Type := Make {
  id : N;
  sessionId : jsstring;
  userId : option jsstring;
  role : jsstring;
  content : jsstring;
  timestamp : Z;
  context : option MessageContext;
  tokenCount : option N
}.
End Msg.
Definition AiChatMessage : Type := Msg.t.

Module Session.
(** [AiAnalysisSession]: a row of [ai_analysis_sessions]. *)
Record t : Type := Make {
  id : jsstring;
  userId : option jsstring;
  title : jsstring;
  status : jsstring;
  createdAt : Z;
  updatedAt : Z
}.
End Session.
Definition AiAnalysisSession : Type := Session.t.

(** ** The model backend *)

Inductive Content : Type :=
| Text (s : jsstring)
  (* the analyst instructions followed by the number of context events
     and [JSON.stringify(eventContext, null, 2)] *)
| SystemPrompt (count : nat) (eventContext : Json)
  (* the quick-analyze instruction followed by the stringified context *)
| QuickPrompt (eventContext : Json).

Record PromptMessage : Type := {
  p_role : jsstring;
  p_content : Content
}.

(** The argument of [client.chat.completions.create]. *)
Record ChatRequest : Type := {
  model : jsstring;
  messages : list PromptMessage;
  max_completion_tokens : N
}.

(** What the call does.  It throws; or it resolves with a completion of
    which the handlers read [choices[0]?.message?.content] and
    [usage?.total_tokens]; or it resolves with a value of which they
    cannot read a content: one without a [choices] array, of which
    [completion.choices[0]] raises a TypeError, or one whose content is
    neither falsy nor a string, on which the sanitizer's [slice] or
    [replace] does.  [type_error] is the message the engine gives that
    error. *)
Inductive BackendOutcome : Type :=
| BackendThrows (message : option jsstring)
| Completion (content : option jsstring) (total_tokens : option N)
| Malformed (type_error : jsstring).

(** ** The world the handlers run in *)

(** The PostgreSQL database behind [db]: the two tables of the engine,
    its clock, its identifier generator, and for each coming statement
    whether it fails. *)
Record Db : Type := {
  chat_rows : list AiChatMessage;
  session_rows : list AiAnalysisSession;
  db_now : Z;
  db_next_id : N;
  db_faults : list bool
}.

Record World : Type := {
  env_base_url : option jsstring;   (* AI_INTEGRATIONS_OPENAI_BASE_URL *)
  env_api_key : option jsstring;    (* AI_INTEGRATIONS_OPENAI_API_KEY *)
  openai : option (option jsstring * option jsstring);
  securityEvents : list SecurityEvent;  (* the map's values, in insertion order *)
  db : Db;
  backend : ChatRequest -> BackendOutcome;
  backend_calls : list ChatRequest;     (* the requests sent, oldest first *)
  clock : Z                             (* what [new Date()] reads *)
}.

Definition set_db (w : World) (d : Db) : World :=
  {| env_base_url := env_base_url w; env_api_key := env_api_key w;
     openai := openai w; securityEvents := securityEvents w; db := d;
     backend := backend w; backend_calls := backend_calls w;
     clock := clock w |}.

Definition set_openai (w : World) (c : option (option jsstring * option jsstring))
  : World :=
  {| env_base_url := env_base_url w; env_api_key := env_api_key w;
     openai := c; securityEvents := securityEvents w; db := db w;
     backend := backend w; backend_calls := backend_calls w;
     clock := clock w |}.

Definition log_call (w : World) (r : ChatRequest) : World :=
  {| env_base_url := env_base_url w; env_api_key := env_api_key w;
     openai := openai w; securityEvents := securityEvents w; db := db w;
     backend := backend w; backend_calls := backend_calls w ++ [r];
     clock := clock w |}.

(** ** Computations that change the world and may throw *)

Record Error : Type := { err_message : option jsstring }.

Inductive Outcome (A : Type) : Type :=
| Returns (a : A)
| Throws (e : Error).
Arguments Returns {A} a.
Arguments Throws {A} e.

Definition M (A : Type) : Type := World -> Outcome A * World.

Definition ret {A} (a : A) : M A := fun w => (Returns a, w).

Definition throw {A} (e : Error) : M A := fun w => (Throws e, w).

Definition bind {A B} (c : M A) (k : A -> M B) : M B :=
  fun w =>
    match c w with
    | (Returns a, w') => k a w'
    | (Throws e, w') => (Throws e, w')
    end.

(** [try { c } catch (e) { h(e) }]: what [c] did to the world before it
    threw stays done. *)
Definition try_catch {A} (c : M A) (h : Error -> M A) : M A :=
  fun w =>
    match c w with
    | (Returns a, w') => (Returns a, w')
    | (Throws e, w') => h e w'
    end.

Declare Scope m_scope.
Delimit Scope m_scope with m.
Notation "x <- c ;; k" := (bind c (fun x => k))
  (at level 61, c at next level, right associativity) : m_scope.
Notation "c ;;; k" := (bind c (fun _ => k))
  (at level 61, right associativity) : m_scope.
Local Open Scope m_scope.

(** ** The storage layer ([server/storage.ts]) *)

(** A stable sort: [x] goes before the first [y] it may precede. *)
Fixpoint insert_by {A} (le : A -> A -> bool) (x : A) (l : list A) : list A :=
  match l with
  | [] => [x]
  | y :: l' => if le x y then x :: y :: l' else y :: insert_by le x l'
  end.

Fixpoint sort_by {A} (le : A -> A -> bool) (l : list A) : list A :=
  match l with
  | [] => []
  | x :: l' => insert_by le x (sort_by le l')
  end.

(** One statement on [db]: it fails when the database says so. *)
Definition db_call {A} (op : Db -> A * Db) : M A :=
  fun w =>
    let d := db w in
    let run fs :=
      let d0 := {| chat_rows := chat_rows d; session_rows := session_rows d;
                   db_now := db_now d; db_next_id := db_next_id d;
                   db_faults := fs |} in
      let '(a, d') := op d0 in (Returns a, set_db w d') in
    match db_faults d with
    | true :: fs =>
        (Throws {| err_message := Some (js "database error") |},
         set_db w {| chat_rows := chat_rows d; session_rows := session_rows d;
                     db_now := db_now d; db_next_id := db_next_id d;
                     db_faults := fs |})
    | false :: fs => run fs
    | [] => run []
    end.

(** A statement that the database may refuse. *)
Definition db_call_checked {A} (op : Db -> option (A * Db)) : M A :=
  fun w =>
    match db_call (fun d => (op d, d)) w with
    | (Returns (Some (a, d')), w') => (Returns a, set_db w' d')
    | (Returns None, w') =>
        (Throws {| err_message := Some (js "refused by the database") |}, w')
    | (Throws e, w') => (Throws e, w')
    end.

(** [select().from(aiChatMessages).where(eq(sessionId)).orderBy(timestamp)] *)
Definition select_messages (sid : jsstring) (d : Db)
  : list AiChatMessage * Db :=
  (sort_by (fun a b => (Msg.timestamp a <=? Msg.timestamp b)%Z)
     (filter (fun r => Js.str_eqb (Msg.sessionId r) sid) (chat_rows d)),
   d).

(** [insert(aiChatMessages).values(message).returning()]: [id] and
    [timestamp] take their defaults. *)
Definition insert_message (i : Msg.insert) (d : Db) : AiChatMessage * Db :=
  let row := {| Msg.id := db_next_id d;
                Msg.sessionId := Msg.i_sessionId i;
                Msg.userId := Msg.i_userId i;
                Msg.role := Msg.i_role i;
                Msg.content := Msg.i_content i;
                Msg.timestamp := db_now d;
                Msg.context := Msg.i_context i;
                Msg.tokenCount := Msg.i_tokenCount i |} in
  (row, {| chat_rows := chat_rows d ++ [row];
           session_rows := session_rows d;
           db_now := (db_now d + 1)%Z;
           db_next_id := (db_next_id d + 1)%N;
           db_faults := db_faults d |}).

(** A string parameter of a statement reaches the server as UTF-8.  A
    surrogate code unit that is not half of a pair has no encoding and
    goes as U+FFFD; a text holding the code unit 0 is refused by the
    server. *)
Definition is_high_surrogate (c : N) : bool :=
  ((55296 <=? c) && (c <=? 56319))%N.

Definition is_low_surrogate (c : N) : bool :=
  ((56320 <=? c) && (c <=? 57343))%N.

Fixpoint utf8_round_trip (s : jsstring) : jsstring :=
  match s with
  | [] => []
  | c :: t =>
      if is_high_surrogate c
      then match t with
           | c' :: t' =>
               if is_low_surrogate c' then c :: c' :: utf8_round_trip t'
               else 65533%N :: utf8_round_trip t
           | [] => [65533%N]
           end
      else if is_low_surrogate c then 65533%N :: utf8_round_trip t
      else c :: utf8_round_trip t
  end.

Definition pg_text (s : jsstring) : option jsstring :=
  if existsb (N.eqb 0) s then None else Some (utf8_round_trip s).

(** [s.isWellFormed()]: every surrogate of [s] is half of a pair. *)
Fixpoint well_formed (s : jsstring) : bool :=
  match s with
  | [] => true
  | c :: t =>
      if is_high_surrogate c
      then match t with
           | c' :: t' => is_low_surrogate c' && well_formed t'
           | [] => false
           end
      else negb (is_low_surrogate c) && well_formed t
  end.

(** [update(aiAnalysisSessions).set({ title, updatedAt: now })
    .where(eq(id, sid)).returning()], of which the first row is read;
    [now] is the [new Date()] of the caller. *)
Definition update_title (sid title : jsstring) (now : Z) (d : Db)
  : option (option AiAnalysisSession * Db) :=
  match pg_text title, pg_text sid with
  | Some title', Some sid' =>
      let upd (r : AiAnalysisSession) :=
        if Js.str_eqb (Session.id r) sid'
        then {| Session.id := Session.id r; Session.userId := Session.userId r;
                Session.title := title'; Session.status := Session.status r;
                Session.createdAt := Session.createdAt r;
                Session.updatedAt := now |}
        else r in
      Some (List.find (fun r => Js.str_eqb (Session.id r) sid')
              (List.map upd (session_rows d)),
            {| chat_rows := chat_rows d;
               session_rows := List.map upd (session_rows d);
               db_now := (db_now d + 1)%Z;
               db_next_id := db_next_id d;
               db_faults := db_faults d |})
  | _, _ => None
  end.

(** [MemStorage.getSecurityEvents]: most recent first. *)
Definition getSecurityEvents : M (list SecurityEvent) :=
  fun w =>
    (Returns (sort_by (fun a b => (Event.timestamp b <=? Event.timestamp a)%Z)
                      (securityEvents w)), w).

Definition getAiChatMessages (sessionId : jsstring) : M (list AiChatMessage) :=
  try_catch (db_call (select_messages sessionId)) (fun _ => ret []).

Definition createAiChatMessage (message : Msg.insert) : M AiChatMessage :=
  db_call (insert_message message).

(** [updateAiAnalysisSession(id, { title })] *)
Definition updateAiAnalysisSession (id title : jsstring)
  : M (option AiAnalysisSession) :=
  fun w =>
    try_catch (db_call_checked (update_title id title (clock w)))
              (fun _ => ret None) w.

(** ** The routes ([server/routes.ts]) *)

Definition isAiConfigured (w : World) : bool :=
  Js.truthy_opt (env_base_url w) && Js.truthy_opt (env_api_key w).

(** The client is built on first use and kept; without configuration
    there is none. *)
Definition getOpenAiClient : M (option (option jsstring * option jsstring)) :=
  fun w =>
    if negb (isAiConfigured w) then (Returns None, w)
    else match openai w with
         | Some c => (Returns (Some c), w)
         | None =>
             let c := (env_base_url w, env_api_key w) in
             (Returns (Some c), set_openai w (Some c))
         end.

(** [client.chat.completions.create(request)] and the handlers' reading
    of its result, [choices[0]?.message?.content] and
    [usage?.total_tokens]: nothing else happens between the call and the
    reading, and a value that cannot be read raises its TypeError there. *)
Definition chat_completions_create (request : ChatRequest)
  : M (option jsstring * option N) :=
  fun w =>
    let w' := log_call w request in
    match backend w request with
    | BackendThrows msg => (Throws {| err_message := msg |}, w')
    | Completion content total => (Returns (content, total), w')
    | Malformed type_error =>
        (Throws {| err_message := Some type_error |}, w')
    end.

(** The request bodies and the responses. *)
Record AnalyzeBody : Type := {
  sessionId : option jsstring;
  message : option jsstring;
  eventIds : option (list jsstring);
  filters : option Filters
}.

Record QuickBody : Type := {
  question : option jsstring;
  q_eventIds : option (list jsstring)
}.

Inductive Payload : Type :=
| ErrorJson (error : jsstring) (message details : option jsstring)
| AnalyzeJson (message : AiChatMessage) (eventsAnalyzed : nat) (tokensUsed : N)
| QuickJson (answer : jsstring) (eventsAnalyzed : nat).

Record Response : Type := {
  status : nat;
  payload : Payload
}.

Definition unavailable : Response :=
  {| status := 503;
     payload := ErrorJson (js "AI service unavailable")
       (Some (js "The AI integration is not configured. Please ensure OpenAI API credentials are set up in Replit's AI Integrations."))
       None |}.

(** [eventIds.includes(e.id)] *)
Definition includes (ids : list jsstring) (x : jsstring) : bool :=
  existsb (Js.str_eqb x) ids.

(** [if (f && v !== f) return false] for one filter field. *)
Definition field_rejects (f : option jsstring) (v : option jsstring) : bool :=
  match f with
  | Some (c :: f') =>
      match v with
      | Some x => negb (Js.str_eqb x (c :: f'))
      | None => true
      end
  | _ => false
  end.

Definition filter_matches (f : Filters) (e : SecurityEvent) : bool :=
  if field_rejects (f_severity f) (Some (Event.severity e)) then false
  else if field_rejects (f_eventType f) (Some (Event.eventType e)) then false
  else if field_rejects (f_source f) (Some (Event.source e)) then false
  else if field_rejects (f_category f) (Event.category e) then false
  else true.

(** The context selection of [/api/ai/analyze]. *)
Definition selectContext (allEvents : list SecurityEvent)
           (eventIds : option (list jsstring)) (filters : option Filters)
  : list SecurityEvent :=
  match eventIds with
  | Some (i :: ids) => filter (fun e => includes (i :: ids) (Event.id e)) allEvents
  | _ =>
      match filters with
      | Some f => firstn 20 (filter (filter_matches f) allEvents)
      | None => firstn 15 allEvents
      end
  end.

(** The context selection of [/api/ai/quick-analyze]. *)
Definition selectContextQuick (allEvents : list SecurityEvent)
           (eventIds : option (list jsstring)) : list SecurityEvent :=
  match eventIds with
  | Some (i :: ids) => filter (fun e => includes (i :: ids) (Event.id e)) allEvents
  | _ => firstn 10 allEvents
  end.

Definition eventContext (contextEvents : list SecurityEvent) : Json :=
  JArr (List.map (fun e =>
    JObj [("id", JStr (Event.id e)); ("timestamp", JNum (Event.timestamp e));
          ("eventType", JStr (Event.eventType e));
          ("severity", JStr (Event.severity e));
          ("source", JStr (Event.source e));
          ("destination", JOpt (Event.destination e));
          ("user", JOpt (Event.user e));
          ("description", JStr (Event.description e));
          ("action", JOpt (Event.action e));
          ("status", JOpt (Event.status e));
          ("category", JOpt (Event.category e));
          ("tactic", JOpt (Event.tactic e));
          ("technique", JOpt (Event.technique e));
          ("ruleName", JOpt (Event.ruleName e));
          ("metadata", Event.metadata e);
          ("rawLog", JOpt (Event.rawLog e))]%string) contextEvents).

Definition eventContextQuick (contextEvents : list SecurityEvent) : Json :=
  JArr (List.map (fun e =>
    JObj [("id", JStr (Event.id e)); ("timestamp", JNum (Event.timestamp e));
          ("eventType", JStr (Event.eventType e));
          ("severity", JStr (Event.severity e));
          ("source", JStr (Event.source e));
          ("destination", JOpt (Event.destination e));
          ("description", JStr (Event.description e));
          ("action", JOpt (Event.action e));
          ("tactic", JOpt (Event.tactic e));
          ("technique", JOpt (Event.technique e));
          ("metadata", Event.metadata e)]%string) contextEvents).

(** [previousMessages.slice(-10).map(...)]: the role is passed on as
    it is stored. *)
Definition conversationHistory (previousMessages : list AiChatMessage)
  : list PromptMessage :=
  List.map (fun m => {| p_role := Msg.role m; p_content := Text (Msg.content m) |})
           (Js.slice_last 10 previousMessages).

Definition analyzePrompt (contextEvents : list SecurityEvent)
           (previousMessages : list AiChatMessage) (message : jsstring)
  : list PromptMessage :=
  [{| p_role := js "system";
      p_content := SystemPrompt (List.length contextEvents)
                                (eventContext contextEvents) |}]
  ++ conversationHistory previousMessages
  ++ [{| p_role := js "user"; p_content := Text message |}].

(** The title given to a session after its first message. *)
Definition titleOf (message : jsstring) : jsstring :=
  let titleWords := Js.join (js " ") (firstn 5 (Js.split 32 message)) in
  if Nat.ltb 30 (List.length titleWords)
  then Js.substring 0 30 titleWords ++ js "..."
  else titleWords.

Definition or_null (v : option jsstring) : option jsstring :=
  if Js.truthy_opt v then v else None.

Definition or_zero (v : option N) : N :=
  match v with Some n => n | None => 0%N end.

(** The body of the [try] of [app.post("/api/ai/analyze")]; [userId] is
    [req.user?.claims?.sub]. *)
Definition analyze_try (userId : option jsstring) (body : AnalyzeBody)
  : M Response :=
  client <- getOpenAiClient ;;
  match client with
  | None => ret unavailable
  | Some _ =>
      match message body, sessionId body with
      | Some (c :: msg'), Some (c' :: sid') =>
          let message := c :: msg' in
          let sessionId := c' :: sid' in
          allEvents <- getSecurityEvents ;;
          let contextEvents :=
            selectContext allEvents (eventIds body) (filters body) in
          let ids := List.map Event.id contextEvents in
          createAiChatMessage
            {| Msg.i_sessionId := sessionId;
               Msg.i_userId := or_null userId;
               Msg.i_role := js "user";
               Msg.i_content := message;
               Msg.i_context := Some {| ctx_eventIds := ids;
                                        ctx_filters := filters body |};
               Msg.i_tokenCount := None |} ;;;
          previousMessages <- getAiChatMessages sessionId ;;
          completion <- chat_completions_create
            {| model := js "gpt-5";
               messages := analyzePrompt contextEvents previousMessages message;
               max_completion_tokens := 4096 |} ;;
          let assistantResponse := sanitize (fst completion) in
          savedMessage <- createAiChatMessage
            {| Msg.i_sessionId := sessionId;
               Msg.i_userId := or_null userId;
               Msg.i_role := js "assistant";
               Msg.i_content := assistantResponse;
               Msg.i_context := Some {| ctx_eventIds := ids;
                                        ctx_filters := None |};
               Msg.i_tokenCount := Some (or_zero (snd completion)) |} ;;
          (if Nat.eqb (List.length previousMessages) 0
           then updateAiAnalysisSession sessionId (titleOf message) ;;; ret tt
           else ret tt) ;;;
          ret {| status := 200;
                 payload := AnalyzeJson savedMessage (List.length contextEvents)
                                        (or_zero (snd completion)) |}
      | _, _ =>
          ret {| status := 400;
                 payload := ErrorJson (js "Message and sessionId are required")
                                      None None |}
      end
  end.

Definition analyze (userId : option jsstring) (body : AnalyzeBody) : M Response :=
  try_catch (analyze_try userId body)
    (fun error =>
       ret {| status := 500;
              payload := ErrorJson (js "Failed to analyze security events") None
                (Some (match err_message error with
                       | Some (c :: d) => c :: d
                       | _ => js "Unknown error occurred"
                       end)) |}).

(** The body of the [try] of [app.post("/api/ai/quick-analyze")]. *)
Definition quick_analyze_try (body : QuickBody) : M Response :=
  client <- getOpenAiClient ;;
  match client with
  | None => ret unavailable
  | Some _ =>
      match question body with
      | Some (c :: q') =>
          let question := c :: q' in
          allEvents <- getSecurityEvents ;;
          let contextEvents := selectContextQuick allEvents (q_eventIds body) in
          completion <- chat_completions_create
            {| model := js "gpt-5";
               messages :=
                 [{| p_role := js "system";
                     p_content := QuickPrompt (eventContextQuick contextEvents) |};
                  {| p_role := js "user"; p_content := Text question |}];
               max_completion_tokens := 2048 |} ;;
          let answer := sanitize (fst completion) in
          ret {| status := 200;
                 payload := QuickJson answer (List.length contextEvents) |}
      | _ =>
          ret {| status := 400;
                 payload := ErrorJson (js "Question is required") None None |}
      end
  end.

Definition quick_analyze (body : QuickBody) : M Response :=
  try_catch (quick_analyze_try body)
    (fun error =>
       ret {| status := 500;
              payload := ErrorJson (js "Failed to analyze") None
                                   (err_message error) |}).

(** ** What the claims speak about *)

(** [sub] is [l] with some elements left out, the others in place. *)
Inductive Subseq {A} : list A -> list A -> Prop :=
| Subseq_nil : Subseq [] []
| Subseq_skip x sub l : Subseq sub l -> Subseq sub (x :: l)
| Subseq_keep x sub l : Subseq sub l -> Subseq (x :: sub) (x :: l).

(** A request without event identifiers: none given, or an empty list. *)
Definition no_ids (eventIds : option (list jsstring)) : bool :=
  match eventIds with
  | Some (_ :: _) => false
  | _ => true
  end.

(** A filter field constrains an event field when it is given and not
    the empty string; the event field then has to equal it. *)
Definition FieldHolds (f : option jsstring) (v : option jsstring) : Prop :=
  match f with
  | Some (c :: s) => v = Some (c :: s)
  | _ => True
  end.

Definition MatchesAll (f : Filters) (e : SecurityEvent) : Prop :=
  FieldHolds (f_severity f) (Some (Event.severity e))
  /\ FieldHolds (f_eventType f) (Some (Event.eventType e))
  /\ FieldHolds (f_source f) (Some (Event.source e))
  /\ FieldHolds (f_category f) (Event.category e).

(** The reading of the filter contract in which every given field,
    the empty string too, is compared by equality. *)
Definition FieldEquals (f : option jsstring) (v : option jsstring) : Prop :=
  match f with
  | Some s => v = Some s
  | None => True
  end.

Definition MatchesGiven (f : Filters) (e : SecurityEvent) : Prop :=
  FieldEquals (f_severity f) (Some (Event.severity e))
  /\ FieldEquals (f_eventType f) (Some (Event.eventType e))
  /\ FieldEquals (f_source f) (Some (Event.source e))
  /\ FieldEquals (f_category f) (Event.category e).

(** The rows of a session in the message table. *)
Definition stored (sid : jsstring) (w : World) : list AiChatMessage :=
  filter (fun r => Js.str_eqb (Msg.sessionId r) sid) (chat_rows (db w)).

(** The database fails the next statement. *)
Definition next_fails (w : World) : bool :=
  match db_faults (db w) with
  | true :: _ => true
  | _ => false
  end.





(** The six patterns of the sanitizer, for its five kinds of blocked
    content. *)
Definition blocked : list regex :=
  [script_re; iframe_re; jsurl_re; dataurl_re; handler_quoted_re;
   handler_bare_re].

(** [r] matches somewhere in [s]. *)
Definition has_match (r : regex) (s : jsstring) : bool :=
  match search r s 0 with
  | Some _ => true
  | None => false
  end.

(** No blocked pattern occurs in the text; [null] holds none. *)
Definition pattern_free (x : option jsstring) : bool :=
  match x with
  | None => true
  | Some s => forallb (fun r => negb (has_match r s)) blocked
  end.

(** The fewest code units a match of [r] consumes. *)
Fixpoint minlen (r : regex) : nat :=
  match r with
  | Chr _ | Cls _ _ => 1
  | Seq a b => minlen a + minlen b
  | Alt a b => Nat.min (minlen a) (minlen b)
  | Group _ a => minlen a
  | _ => 0
  end.

(** Patterns made of characters, classes, sequence and alternation, and
    the most code units their matches consume. *)
Fixpoint bounded (r : regex) : bool :=
  match r with
  | Eps | Chr _ | Cls _ _ => true
  | Seq a b | Alt a b => bounded a && bounded b
  | _ => false
  end.

Fixpoint maxlen (r : regex) : nat :=
  match r with
  | Chr _ | Cls _ _ => 1
  | Seq a b => maxlen a + maxlen b
  | Alt a b => Nat.max (maxlen a) (maxlen b)
  | _ => 0
  end.

(** [local r g]: when whatever follows [r] in a match consumes at least
    [g] more code units, the assertions inside [r] look at nothing
    beyond the end of the match. *)
Fixpoint local (r : regex) (g : nat) : bool :=
  match r with
  | Eps | Chr _ | Cls _ _ | Backref _ => true
  | WordB => Nat.leb 1 g
  | Seq a b => local a (g + minlen b) && local b g
  | Alt a b => local a g && local b g
  | Star a => local a g
  | Group _ a => local a g
  | NegLook a => bounded a && Nat.leb (maxlen a) g
  end.

(** The states a match runs through: the index is inside the text and
    every capture lies before it. *)
Definition caps_ok (st : mstate) : Prop :=
  Forall (fun c => fst (snd c) <= snd (snd c) /\ snd (snd c) <= pos st) (caps st).

Definition wf (s : jsstring) (st : mstate) : Prop :=
  pos st <= List.length s /\ caps_ok st.

(** ** Sample data *)

Definition mkEvent (id : string) (ts : Z) (ty sev src : string)
           (cat : option string) : SecurityEvent :=
  {| Event.id := js id; Event.timestamp := ts; Event.eventType := js ty;
     Event.severity := js sev; Event.source := js src;
     Event.destination := None; Event.user := None;
     Event.description := js "sample"; Event.action := None;
     Event.status := None; Event.category := option_map js cat;
     Event.ruleName := None; Event.tactic := None; Event.technique := None;
     Event.rawLog := None; Event.metadata := JNull |}.

Definition ev1 := mkEvent "e1" 300 "Malware Detected" "Critical" "10.0.0.1" (Some "Malware"%string).
Definition ev2 := mkEvent "e2" 200 "Malware Detected" "High" "10.0.0.2" None.
Definition ev3 := mkEvent "e3" 100 "Login Failure" "Critical" "10.0.0.3" (Some "Auth"%string).

Definition noFilter : Filters :=
  {| f_severity := None; f_eventType := None; f_source := None;
     f_category := None |}.

Definition critMalware : Filters :=
  {| f_severity := Some (js "Critical");
     f_eventType := Some (js "Malware Detected");
     f_source := None; f_category := None |}.

Definition emptySeverity : Filters :=
  {| f_severity := Some []; f_eventType := None; f_source := None;
     f_category := None |}.

Definition mkDb (rows : list AiChatMessage) (faults : list bool) : Db :=
  {| chat_rows := rows;
     session_rows := [{| Session.id := js "s1"; Session.userId := None;
                         Session.title := js "New Analysis Session";
                         Session.status := js "active";
                         Session.createdAt := 900; Session.updatedAt := 900 |}];
     db_now := 1000; db_next_id := 7; db_faults := faults |}.

Definition mkWorld (configured : bool) (d : Db) (out : BackendOutcome) : World :=
  {| env_base_url := if configured then Some (js "https://ai.example/v1") else None;
     env_api_key := if configured then Some (js "secret") else None;
     openai := None;
     securityEvents := [ev3; ev1; ev2];
     db := d;
     backend := fun _ => out;
     backend_calls := [];
     clock := 2000 |}.

Definition mkBody (msg : string) : AnalyzeBody :=
  {| sessionId := Some (js "s1"); message := Some (js msg);
     eventIds := None; filters := None |}.

Definition storedSystemTurn : AiChatMessage :=
  {| Msg.id := 1; Msg.sessionId := js "s1"; Msg.userId := None;
     Msg.role := js "system"; Msg.content := js "be brief";
     Msg.timestamp := 10; Msg.context := None; Msg.tokenCount := None |}.

Definition goodAnswer : BackendOutcome :=
  Completion (Some (js "Two failed logins, then a success.")) (Some 42%N).

(** ** More of the storage layer: the event store *)

(** [InsertSecurityEvent]: an event without [id], the timestamp
    optional. *)
Record InsertSecurityEvent : Type := {
  ie_timestamp : option Z;
  ie_eventType : jsstring;
  ie_severity : jsstring;
  ie_source : jsstring;
  ie_destination : option jsstring;
  ie_user : option jsstring;
  ie_description : jsstring;
  ie_action : option jsstring;
  ie_status : option jsstring;
  ie_category : option jsstring;
  ie_ruleName : option jsstring;
  ie_tactic : option jsstring;
  ie_technique : option jsstring;
  ie_rawLog : option jsstring;
  ie_metadata : Json
}.

Definition set_events (w : World) (evs : list SecurityEvent) : World :=
  {| env_base_url := env_base_url w; env_api_key := env_api_key w;
     openai := openai w; securityEvents := evs; db := db w;
     backend := backend w; backend_calls := backend_calls w;
     clock := clock w |}.

(** [this.securityEvents.set(id, e)] on the map's values, each filed
    under its own [id]: an entry with that key is replaced where it
    stands, a new key goes to the end. *)
Fixpoint events_set (id : jsstring) (e : SecurityEvent) (l : list SecurityEvent)
  : list SecurityEvent :=
  match l with
  | [] => [e]
  | x :: l' => if Js.str_eqb (Event.id x) id then e :: l'
               else x :: events_set id e l'
  end.

(** [MemStorage.getSecurityEvent]: [this.securityEvents.get(id)]. *)
Definition getSecurityEvent (id : jsstring) : M (option SecurityEvent) :=
  fun w =>
    (Returns (List.find (fun e => Js.str_eqb (Event.id e) id) (securityEvents w)),
     w).

(** [MemStorage.createSecurityEvent]; [uuid] is what [randomUUID()]
    gives and [now] what [new Date()] gives. *)
Definition createSecurityEvent (uuid : jsstring) (now : Z)
           (event : InsertSecurityEvent) : M SecurityEvent :=
  fun w =>
    let newEvent :=
      {| Event.id := uuid;
         Event.timestamp := match ie_timestamp event with
                            | Some t => t
                            | None => now
                            end;
         Event.eventType := ie_eventType event;
         Event.severity := ie_severity event;
         Event.source := ie_source event;
         Event.destination := ie_destination event;
         Event.user := ie_user event;
         Event.description := ie_description event;
         Event.action := ie_action event;
         Event.status := ie_status event;
         Event.category := ie_category event;
         Event.ruleName := ie_ruleName event;
         Event.tactic := ie_tactic event;
         Event.technique := ie_technique event;
         Event.rawLog := ie_rawLog event;
         Event.metadata := ie_metadata event |} in
    (Returns newEvent, set_events w (events_set uuid newEvent (securityEvents w))).

(** [c] is a character every match of [r] contains. *)
Fixpoint requires (r : regex) (c : N) : bool :=
  match r with
  | Chr c0 => N.eqb c0 c
  | Seq a b => requires a c || requires b c
  | Alt a b => requires a c && requires b c
  | Group _ a => requires a c
  | _ => false
  end.

Definition sampleInsert (ts : option Z) : InsertSecurityEvent :=
  {| ie_timestamp := ts; ie_eventType := js "Port Scan";
     ie_severity := js "Low"; ie_source := js "10.0.0.9";
     ie_destination := None; ie_user := None; ie_description := js "sample";
     ie_action := None; ie_status := None; ie_category := None;
     ie_ruleName := None; ie_tactic := None; ie_technique := None;
     ie_rawLog := None; ie_metadata := JNull |}.

(** ** More of the storage layer: analysis sessions *)

(** [eq(column, x)] on a nullable column: [NULL] equals nothing. *)
Definition column_is (v : option jsstring) (x : jsstring) : bool :=
  match v with
  | Some y => Js.str_eqb y x
  | None => false
  end.

(** [select().from(aiAnalysisSessions).orderBy(desc(updatedAt))], with
    [.where(eq(userId, userId))] when [userId] is truthy. *)
Definition select_sessions (userId : option jsstring) (d : Db)
  : list AiAnalysisSession * Db :=
  (sort_by (fun a b => (Session.updatedAt b <=? Session.updatedAt a)%Z)
     (match userId with
      | Some (c :: u) =>
          filter (fun r => column_is (Session.userId r) (c :: u)) (session_rows d)
      | _ => session_rows d
      end),
   d).

Definition getAiAnalysisSessions (userId : option jsstring)
  : M (list AiAnalysisSession) :=
  try_catch (db_call (select_sessions userId)) (fun _ => ret []).

(** [const [session] = select().from(aiAnalysisSessions).where(eq(id, id))] *)
Definition select_session (id : jsstring) (d : Db)
  : option AiAnalysisSession * Db :=
  (List.find (fun r => Js.str_eqb (Session.id r) id) (session_rows d), d).

Definition getAiAnalysisSession (id : jsstring) : M (option AiAnalysisSession) :=
  try_catch (db_call (select_session id)) (fun _ => ret None).

(** [InsertAiAnalysisSession]; [status] has a default. *)
Record InsertAiAnalysisSession : Type := {
  is_userId : option jsstring;
  is_title : jsstring;
  is_status : option jsstring
}.

(** [insert(aiAnalysisSessions).values(session).returning()]: [id] is
    the primary key, [uuid] what [gen_random_uuid()] gives; the
    timestamps take their default. *)
Definition insert_session (uuid : jsstring) (i : InsertAiAnalysisSession) (d : Db)
  : option (AiAnalysisSession * Db) :=
  if existsb (fun r => Js.str_eqb (Session.id r) uuid) (session_rows d) then None
  else
    let row := {| Session.id := uuid;
                  Session.userId := is_userId i;
                  Session.title := is_title i;
                  Session.status := match is_status i with
                                    | Some s => s
                                    | None => js "active"
                                    end;
                  Session.createdAt := db_now d;
                  Session.updatedAt := db_now d |} in
    Some (row, {| chat_rows := chat_rows d;
                  session_rows := session_rows d ++ [row];
                  db_now := (db_now d + 1)%Z;
                  db_next_id := db_next_id d;
                  db_faults := db_faults d |}).

Definition createAiAnalysisSession (uuid : jsstring) (session : InsertAiAnalysisSession)
  : M AiAnalysisSession :=
  db_call_checked (insert_session uuid session).

(** The session routes ([server/routes.ts]). *)
Inductive StorePayload : Type :=
| SessionsJson (sessions : list AiAnalysisSession)
| SessionJson (session : AiAnalysisSession)
| FailJson (error : jsstring).

Record StoreResponse : Type := {
  st_status : nat;
  st_payload : StorePayload
}.

(** [app.get("/api/ai/sessions")]; [userId] is [req.user?.claims?.sub]. *)
Definition sessions_index (userId : option jsstring) : M StoreResponse :=
  try_catch
    (sessions <- getAiAnalysisSessions userId ;;
     ret {| st_status := 200; st_payload := SessionsJson sessions |})
    (fun _ => ret {| st_status := 500;
                     st_payload := FailJson (js "Failed to fetch AI sessions") |}).

(** [app.get("/api/ai/sessions/:id")] *)
Definition sessions_show (id : jsstring) : M StoreResponse :=
  try_catch
    (session <- getAiAnalysisSession id ;;
     match session with
     | None => ret {| st_status := 404;
                      st_payload := FailJson (js "Session not found") |}
     | Some s => ret {| st_status := 200; st_payload := SessionJson s |}
     end)
    (fun _ => ret {| st_status := 500;
                     st_payload := FailJson (js "Failed to fetch session") |}).

(** [app.post("/api/ai/sessions")]; [title] is [req.body.title]. *)
Definition sessions_create (uuid : jsstring) (userId title : option jsstring)
  : M StoreResponse :=
  try_catch
    (session <- createAiAnalysisSession uuid
                  {| is_userId := or_null userId;
                     is_title := match title with
                                 | Some (c :: t) => c :: t
                                 | _ => js "New Analysis Session"
                                 end;
                     is_status := Some (js "active") |} ;;
     ret {| st_status := 201; st_payload := SessionJson session |})
    (fun _ => ret {| st_status := 500;
                     st_payload := FailJson (js "Failed to create AI session") |}).

Definition aliceSession : AiAnalysisSession :=
  {| Session.id := js "s2"; Session.userId := Some (js "alice");
     Session.title := js "Lateral movement"; Session.status := js "active";
     Session.createdAt := 950; Session.updatedAt := 980 |}.

Definition withSessions (sessions : list AiAnalysisSession) (faults : list bool)
  : World :=
  mkWorld true
    {| chat_rows := []; session_rows := sessions; db_now := 1000;
       db_next_id := 7; db_faults := faults |} goodAnswer.

(** ** The in-memory store ([server/storage.ts]): alerts and compliance
    responses *)

Module Mem.

(** The value of a property. *)
Inductive Val : Type :=
| VNull
| VBool (b : bool)
| VNum (n : Z)
| VStr (s : jsstring)
| VDate (ms : Z)       (* a Date object *)
| VOther (j : Json).   (* an array or an object *)

(** An object as the map from its property names to their values: the
    binding nearest to the head is the one in force. *)
Definition Obj : Type := list (string * Val).

(** [o.k], [undefined] for a property that [o] does not have. *)
Fixpoint get (k : string) (o : Obj) : option Val :=
  match o with
  | [] => None
  | (k', v) :: o' => if String.eqb k' k then Some v else get k o'
  end.

(** [{ ...o, k: v }] *)
Definition set (k : string) (v : Val) (o : Obj) : Obj := (k, v) :: o.

(** [{ ...base, ...extra }] *)
Definition spread (base extra : Obj) : Obj := extra ++ base.

(** [a === b] for two property reads; two objects (dates, arrays) read
    from different places are never the same object. *)
Definition strict_eq (a b : option Val) : bool :=
  match a, b with
  | None, None => true
  | Some VNull, Some VNull => true
  | Some (VBool x), Some (VBool y) => Bool.eqb x y
  | Some (VNum x), Some (VNum y) => Z.eqb x y
  | Some (VStr x), Some (VStr y) => Js.str_eqb x y
  | _, _ => false
  end.

(** A [Map<string, Obj>]: the entries in insertion order. *)
Definition Store : Type := list (jsstring * Obj).

(** [map.get(k)] *)
Fixpoint m_get (k : jsstring) (m : Store) : option Obj :=
  match m with
  | [] => None
  | (k', o) :: m' => if Js.str_eqb k' k then Some o else m_get k m'
  end.

(** [map.set(k, o)]: an entry with that key is replaced where it
    stands, a new key goes to the end. *)
Fixpoint m_set (k : jsstring) (o : Obj) (m : Store) : Store :=
  match m with
  | [] => [(k, o)]
  | (k', o') :: m' => if Js.str_eqb k' k then (k, o) :: m'
                      else (k', o') :: m_set k o m'
  end.

(** [Array.from(map.values())] *)
Definition values (m : Store) : list Obj := List.map snd m.

(** [map.get(v)] for a key read from an object: every entry is filed
    under a string. *)
Definition m_get_val (v : option Val) (m : Store) : option Obj :=
  match v with
  | Some (VStr k) => m_get k m
  | _ => None
  end.

(** Alerts.  [uuid] is what [randomUUID()] gives, [now] what
    [new Date()] gives. *)
Definition getAlert (id : jsstring) (alerts : Store) : option Obj :=
  m_get id alerts.

Definition createAlert (uuid : jsstring) (now : Z) (alert : Obj) (alerts : Store)
  : Obj * Store :=
  let newAlert :=
    set "updatedAt" (VDate now)
      (set "createdAt" (VDate now) (spread [("id"%string, VStr uuid)] alert)) in
  (newAlert, m_set uuid newAlert alerts).

Definition updateAlert (id : jsstring) (updates : Obj) (now : Z) (alerts : Store)
  : option Obj * Store :=
  match m_get id alerts with
  | None => (None, alerts)
  | Some alert =>
      let updated := set "updatedAt" (VDate now) (spread alert updates) in
      (Some updated, m_set id updated alerts)
  end.

(** Compliance responses. *)
Definition getComplianceResponses (responses : Store) : list Obj :=
  values responses.

Definition getComplianceResponse (id : jsstring) (responses : Store)
  : option Obj :=
  m_get id responses.

Definition createComplianceResponse (uuid : jsstring) (now : Z) (response : Obj)
           (responses : Store) : Obj * Store :=
  let newResponse :=
    set "updatedAt" (VDate now) (spread [("id"%string, VStr uuid)] response) in
  (newResponse, m_set uuid newResponse responses).

(** [updateComplianceResponse(id, updates)], [id] being a string or, in
    [upsertComplianceResponse], what [existing.id] holds. *)
Definition updateComplianceResponse (id : option Val) (updates : Obj) (now : Z)
           (responses : Store) : option Obj * Store :=
  match id, m_get_val id responses with
  | Some (VStr k), Some response =>
      let updated := set "updatedAt" (VDate now) (spread response updates) in
      (Some updated, m_set k updated responses)
  | _, _ => (None, responses)
  end.

Definition upsertComplianceResponse (uuid : jsstring) (now : Z) (response : Obj)
           (responses : Store) : option Obj * Store :=
  match List.find (fun r => strict_eq (get "questionId" r)
                                      (get "questionId" response))
                  (values responses) with
  | Some existing =>
      updateComplianceResponse (get "id" existing) response now responses
  | None =>
      let '(r, s) := createComplianceResponse uuid now response responses in
      (Some r, s)
  end.

(** Every entry is filed under the identifier it carries, no key twice. *)
Definition WellFiled (m : Store) : Prop :=
  NoDup (List.map fst m)
  /\ forall k o, In (k, o) m -> get "id" o = Some (VStr k).

(** No two stored responses answer the same question. *)
Definition OnePerQuestion (m : Store) : Prop :=
  ForallOrdPairs
    (fun a b => strict_eq (get "questionId" a) (get "questionId" b) = false)
    (values m).

End Mem.

Definition sampleAnswer (id q status : string) : Mem.Obj :=
  [("id", Mem.VStr (js id)); ("questionId", Mem.VStr (js q));
   ("frameworkId", Mem.VStr (js "nist")); ("status", Mem.VStr (js status));
   ("updatedAt", Mem.VDate 900)]%string.

Definition sampleAnswers : Mem.Store :=
  [(js "r1", sampleAnswer "r1" "q1" "Compliant");
   (js "r2", sampleAnswer "r2" "q2" "Non-Compliant")].

(** * Theorems *)

(** ** Lists and strings *)

Lemma str_eqb_eq (a b : jsstring) : Js.str_eqb a b = true <-> a = b.
Proof.
  unfold Js.str_eqb. destruct (list_eq_dec N.eq_dec a b); split; congruence.
Qed.

Lemma str_eqb_refl (a : jsstring) : Js.str_eqb a a = true.
Proof. now apply str_eqb_eq. Qed.

Lemma includes_In (ids : list jsstring) (x : jsstring) :
  includes ids x = true <-> In x ids.
Proof.
  unfold includes. rewrite existsb_exists. split.
  - intros (y & Hy & E). apply str_eqb_eq in E. now subst.
  - intros H. exists x. split; [assumption | apply str_eqb_refl].
Qed.

Lemma filter_Subseq {A} (p : A -> bool) (l : list A) : Subseq (filter p l) l.
Proof.
  induction l as [| x l IH]; simpl.
  - constructor.
  - destruct (p x); now constructor.
Qed.

Lemma filter_all {A} (p : A -> bool) (l : list A) :
  (forall x, In x l -> p x = true) -> filter p l = l.
Proof.
  induction l as [| x l IH]; simpl; intros H; [reflexivity |].
  rewrite (H x (or_introl eq_refl)). f_equal. apply IH. intros y Hy.
  apply H. now right.
Qed.

(** Selecting by identifier from a corpus without duplicate identifiers
    gives no more events than identifiers. *)
Lemma filter_ids_length (l : list SecurityEvent) (ids : list jsstring) :
  NoDup (List.map Event.id l) ->
  List.length (filter (fun e => includes ids (Event.id e)) l) <= List.length ids.
Proof.
  intros ND.
  rewrite <- (length_map Event.id).
  apply NoDup_incl_length.
  - clear -ND. induction l as [| x l IH]; simpl; [constructor |].
    inversion ND as [| ? ? Hx ND']; subst.
    destruct (includes ids (Event.id x)); simpl; [| now apply IH].
    constructor; [| now apply IH].
    intros Hin. apply Hx. apply in_map_iff in Hin as (y & E & Hy).
    apply filter_In in Hy as [Hy _]. apply in_map_iff. now exists y.
  - intros i Hi. apply in_map_iff in Hi as (e & E & He).
    apply filter_In in He as [_ He]. apply includes_In in He. now subst.
Qed.

(** ** Context selection *)

Lemma field_rejects_spec (f v : option jsstring) :
  field_rejects f v = false <-> FieldHolds f v.
Proof.
  unfold field_rejects, FieldHolds.
  destruct f as [[| c s] |]; try tauto.
  destruct v as [x |].
  - rewrite negb_false_iff, str_eqb_eq. split; intros E.
    + now rewrite E.
    + now injection E.
  - split; discriminate.
Qed.

Lemma filter_matches_spec (f : Filters) (e : SecurityEvent) :
  filter_matches f e = true <-> MatchesAll f e.
Proof.
  unfold filter_matches, MatchesAll.
  rewrite <- !field_rejects_spec.
  destruct (field_rejects (f_severity f) _), (field_rejects (f_eventType f) _),
    (field_rejects (f_source f) _), (field_rejects (f_category f) _);
    intuition discriminate.
Qed.

(** C5.  The size of the selected context is bounded: a request served
    by the filter branch (a filter object and no event identifiers) gets
    at most 20 events, a session-mode request with neither filter nor
    identifiers at most 15, and a quick-analyze request without
    identifiers at most 10. *)
Theorem context_size_bounded
        (allEvents : list SecurityEvent) (eventIds : option (list jsstring))
        (f : Filters) :
  no_ids eventIds = true ->
  List.length (selectContext allEvents eventIds (Some f)) <= 20
  /\ List.length (selectContext allEvents eventIds None) <= 15
  /\ List.length (selectContextQuick allEvents eventIds) <= 10.
Proof.
  intros H. destruct eventIds as [[| i ids] |]; try discriminate;
    unfold selectContext, selectContextQuick;
    repeat split; apply firstn_le_length.
Qed.

Lemma context_size_bounded_witness :
  no_ids (Some []) = true
  /\ List.length (selectContext [ev1; ev2; ev3] (Some []) (Some noFilter)) <= 20
  /\ List.length (selectContext [ev1; ev2; ev3] (Some []) None) <= 15
  /\ List.length (selectContextQuick [ev1; ev2; ev3] (Some [])) <= 10.
Proof.
  split; [reflexivity |].
  apply (@context_size_bounded [ev1; ev2; ev3] (Some []) noFilter).
  reflexivity.
Defined.

(** C6, as stated, fails: a filter field given as the empty string does
    not constrain the selection, so an event whose severity differs from
    the given one is returned. *)
Lemma filter_empty_field_counterexample :
  ~ (forall e, In e (selectContext [ev2] None (Some emptySeverity)) ->
               MatchesGiven emptySeverity e).
Proof.
  intros H. destruct (H ev2) as [E _].
  - vm_compute. now left.
  - vm_compute in E. discriminate E.
Qed.

(** C6, amended.  A session-analysis request with a filter object and
    no event identifiers gets the corpus events that match every filter
    field that is given and not the empty string (equality on severity,
    event type, source and category; a field that is absent or empty
    matches every event), in corpus order, cut to the first 20; an event
    that fails one of the constraining fields is not returned. *)
Theorem filter_selection
        (allEvents : list SecurityEvent) (eventIds : option (list jsstring))
        (f : Filters) :
  no_ids eventIds = true ->
  (exists p : SecurityEvent -> bool,
      (forall e, p e = true <-> MatchesAll f e)
      /\ selectContext allEvents eventIds (Some f)
         = firstn 20 (filter p allEvents))
  /\ (forall e, In e (selectContext allEvents eventIds (Some f)) ->
                In e allEvents /\ MatchesAll f e)
  /\ Subseq (filter (filter_matches f) allEvents) allEvents.
Proof.
  intros H.
  assert (E : selectContext allEvents eventIds (Some f)
              = firstn 20 (filter (filter_matches f) allEvents)).
  { destruct eventIds as [[| i ids] |]; try discriminate; reflexivity. }
  split; [| split].
  - exists (filter_matches f). split; [apply filter_matches_spec | exact E].
  - intros e He. rewrite E in He.
    assert (Hin : In e (filter (filter_matches f) allEvents)).
    { rewrite <- (firstn_skipn 20). apply in_or_app. now left. }
    apply filter_In in Hin as [Hin Hm]. split; [assumption |].
    now apply filter_matches_spec.
  - apply filter_Subseq.
Qed.

Lemma filter_selection_witness :
  no_ids None = true
  /\ selectContext [ev1; ev2; ev3] None (Some critMalware) = [ev1].
Proof.
  split; [reflexivity |].
  destruct (@filter_selection [ev1; ev2; ev3] None critMalware eq_refl)
    as [(p & Hp & E) _].
  rewrite E. simpl.
  assert (H1 : p ev1 = true).
  { apply Hp. repeat split. }
  assert (H2 : p ev2 = false).
  { destruct (p ev2) eqn:E2; [| reflexivity].
    apply Hp in E2. destruct E2 as [E2 _]. vm_compute in E2. discriminate E2. }
  assert (H3 : p ev3 = false).
  { destruct (p ev3) eqn:E3; [| reflexivity].
    apply Hp in E3. destruct E3 as (_ & E3 & _). vm_compute in E3.
    discriminate E3. }
  rewrite H1, H2, H3. reflexivity.
Defined.

(** C7.  A request of either endpoint with a non-empty list of event
    identifiers gets exactly the corpus events whose identifier is in
    the list, in corpus order; nothing is cut off: the whole corpus is
    returned when every identifier is listed, and with distinct corpus
    identifiers the list's own size is the only bound. *)
Theorem explicit_ids_selection
        (allEvents : list SecurityEvent) (i : jsstring) (ids : list jsstring)
        (f : option Filters) :
  let chosen := selectContext allEvents (Some (i :: ids)) f in
  selectContextQuick allEvents (Some (i :: ids)) = chosen
  /\ (exists p : SecurityEvent -> bool,
         (forall e, p e = true <-> In (Event.id e) (i :: ids))
         /\ chosen = filter p allEvents)
  /\ (forall e, In e chosen <-> In e allEvents /\ In (Event.id e) (i :: ids))
  /\ Subseq chosen allEvents
  /\ ((forall e, In e allEvents -> In (Event.id e) (i :: ids)) ->
      chosen = allEvents)
  /\ (NoDup (List.map Event.id allEvents) ->
      List.length chosen <= List.length (i :: ids)).
Proof.
  cbv zeta. unfold selectContext, selectContextQuick.
  split; [reflexivity |]. split; [| split; [| split; [| split]]].
  - exists (fun e => includes (i :: ids) (Event.id e)). split; [| reflexivity].
    intros e. apply includes_In.
  - intros e. rewrite filter_In, includes_In. reflexivity.
  - apply filter_Subseq.
  - intros H. apply filter_all. intros e He. apply includes_In. now apply H.
  - apply filter_ids_length.
Qed.

Lemma explicit_ids_selection_witness :
  NoDup (List.map Event.id [ev1; ev2; ev3])
  /\ List.length (selectContext [ev1; ev2; ev3] (Some [js "e3"; js "e1"]) None)
     <= 2.
Proof.
  assert (ND : NoDup (List.map Event.id [ev1; ev2; ev3])).
  { repeat constructor; simpl; intuition discriminate. }
  split; [exact ND |].
  exact (proj2 (proj2 (proj2 (proj2 (proj2
    (@explicit_ids_selection [ev1; ev2; ev3] (js "e3") [js "e1"] None))))) ND).
Defined.

(** ** The unconfigured backend *)

Arguments js : simpl never.
Arguments sanitize : simpl never.
Arguments titleOf : simpl never.
Arguments unavailable : simpl never.

Lemma unconfigured_analyze (userId : option jsstring) (body : AnalyzeBody)
      (w : World) :
  isAiConfigured w = false -> analyze userId body w = (Returns unavailable, w).
Proof.
  intros H. unfold analyze, try_catch, analyze_try, bind, getOpenAiClient.
  rewrite H. reflexivity.
Qed.

(** C1, as stated, fails: without configuration the handler answers
    before it stores anything, so the user's message is not persisted. *)
Lemma unconfigured_counterexample :
  let w := mkWorld false (mkDb [] []) goodAnswer in
  let w' := snd (analyze None (mkBody "Any brute force today?") w) in
  fst (analyze None (mkBody "Any brute force today?") w) = Returns unavailable
  /\ ~ (exists row, In row (chat_rows (db w'))
                    /\ Msg.content row = js "Any brute force today?").
Proof.
  cbv zeta. rewrite unconfigured_analyze by reflexivity. split; [reflexivity |].
  intros (row & Hin & _). exact Hin.
Qed.

(** C1, amended.  While the model backend is unconfigured (base URL or
    API key missing or empty), every session-analysis request is
    answered with the 503 "AI service unavailable" outcome and its
    explanation, the model backend is not invoked, and nothing is
    persisted: neither the user's message nor an assistant message. *)
Theorem unconfigured_service_unavailable
        (userId : option jsstring) (body : AnalyzeBody) (w : World) :
  isAiConfigured w = false ->
  let w' := snd (analyze userId body w) in
  fst (analyze userId body w) = Returns unavailable
  /\ status unavailable = 503
  /\ (exists text, payload unavailable
                   = ErrorJson (js "AI service unavailable") (Some text) None
                   /\ text <> [])
  /\ backend_calls w' = backend_calls w
  /\ chat_rows (db w') = chat_rows (db w)
  /\ w' = w.
Proof.
  intros H. cbv zeta. rewrite unconfigured_analyze by assumption.
  repeat split.
  eexists. split; [reflexivity | discriminate].
Qed.

Lemma unconfigured_service_unavailable_witness :
  let w := mkWorld false (mkDb [storedSystemTurn] []) goodAnswer in
  isAiConfigured w = false
  /\ snd (analyze None (mkBody "Any brute force today?") w) = w.
Proof.
  cbv zeta. split; [reflexivity |].
  apply (@unconfigured_service_unavailable None
           (mkBody "Any brute force today?")
           (mkWorld false (mkDb [storedSystemTurn] []) goodAnswer) eq_refl).
Defined.

(** ** The message store *)

Section SortBy.
Context {A : Type} (key : A -> Z).

Lemma insert_by_perm (x : A) (l : list A) :
  Permutation (insert_by (fun a b => (key a <=? key b)%Z) x l) (x :: l).
Proof.
  induction l as [| y l IH]; simpl; [reflexivity |].
  destruct (key x <=? key y)%Z; [reflexivity |].
  rewrite IH. apply perm_swap.
Qed.

Lemma sort_by_perm (l : list A) :
  Permutation (sort_by (fun a b => (key a <=? key b)%Z) l) l.
Proof.
  induction l as [| x l IH]; simpl; [reflexivity |].
  rewrite insert_by_perm. now constructor.
Qed.


End SortBy.

Lemma db_call_select (sid : jsstring) (w : World) :
  fst (db_call (select_messages sid) w)
  = if next_fails w
    then Throws {| err_message := Some (js "database error") |}
    else Returns (sort_by (fun a b => (Msg.timestamp a <=? Msg.timestamp b)%Z)
                          (stored sid w)).
Proof.
  unfold db_call, next_fails, stored.
  destruct w as [u k o evs [rows sess now nid faults] bk calls clk]; simpl.
  destruct faults as [| [|] fs]; reflexivity.
Qed.

Lemma getAiChatMessages_result (sid : jsstring) (w : World) :
  fst (getAiChatMessages sid w)
  = Returns (if next_fails w then []
             else sort_by (fun a b => (Msg.timestamp a <=? Msg.timestamp b)%Z)
                          (stored sid w)).
Proof.
  unfold getAiChatMessages, try_catch.
  pose proof (db_call_select sid w) as H.
  destruct (db_call (select_messages sid) w) as [[l | e] w']; simpl in *;
    destruct (next_fails w); try discriminate; [exact H | reflexivity].
Qed.




(** A history read that fails looks like an empty session: the title
    is then derived from the message. *)
Example failed_read_infers_title :
  let text := "Investigate the critical SQL injection alerts from last night please"%string in
  let w := mkWorld true (mkDb [storedSystemTurn] [false; true]) goodAnswer in
  List.map Session.title (session_rows (db (snd (analyze None (mkBody text) w))))
  = [js "Investigate the critical SQL i..."].
Proof. vm_compute. reflexivity. Qed.

(** ** The steps of the handlers

    What each storage and backend call returns and what it leaves of
    the world, in the form the proofs about the handlers consume. *)

Arguments selectContext : simpl never.
Arguments eventContext : simpl never.
Arguments analyzePrompt : simpl never.
Arguments sort_by : simpl never.
Arguments Js.slice_last : simpl never.

(** The row that [createAiChatMessage] makes of [i] in world [w]. *)
Lemma insert_message_row (i : Msg.insert) (d : Db) :
  let row := fst (insert_message i d) in
  Msg.role row = Msg.i_role i /\ Msg.content row = Msg.i_content i
  /\ Msg.sessionId row = Msg.i_sessionId i
  /\ Msg.tokenCount row = Msg.i_tokenCount i
  /\ chat_rows (snd (insert_message i d)) = chat_rows d ++ [row].
Proof. cbv zeta. simpl. repeat split. Qed.

Lemma client_inv (w w1 : World) o :
  getOpenAiClient w = (o, w1) ->
  backend_calls w1 = backend_calls w /\ db w1 = db w /\ backend w1 = backend w
  /\ securityEvents w1 = securityEvents w
  /\ o = Returns (if isAiConfigured w
                  then Some (match openai w with
                             | Some c => c
                             | None => (env_base_url w, env_api_key w)
                             end)
                  else None).
Proof.
  unfold getOpenAiClient. destruct (isAiConfigured w); simpl.
  - destruct (openai w); intros E; inversion E; subst; simpl; auto.
  - intros E; inversion E; subst; auto.
Qed.

Lemma create_inv (i : Msg.insert) (w w1 : World) o :
  createAiChatMessage i w = (o, w1) ->
  backend_calls w1 = backend_calls w /\ backend w1 = backend w
  /\ session_rows (db w1) = session_rows (db w)
  /\ db_faults (db w1) = tl (db_faults (db w))
  /\ (if next_fails w
      then (exists e, o = Throws e) /\ chat_rows (db w1) = chat_rows (db w)
      else exists row, o = Returns row
                       /\ chat_rows (db w1) = chat_rows (db w) ++ [row]
                       /\ Msg.role row = Msg.i_role i
                       /\ Msg.content row = Msg.i_content i
                       /\ Msg.sessionId row = Msg.i_sessionId i).
Proof.
  unfold createAiChatMessage, db_call, next_fails.
  destruct w as [u k oa evs [rows sess now nid faults] bk calls clk]; simpl.
  destruct faults as [| [|] fs]; simpl; intros E; inversion E; subst; simpl;
    repeat split; eauto 10.
Qed.

Lemma read_inv (sid : jsstring) (w w1 : World) o :
  getAiChatMessages sid w = (o, w1) ->
  backend_calls w1 = backend_calls w /\ backend w1 = backend w
  /\ session_rows (db w1) = session_rows (db w)
  /\ chat_rows (db w1) = chat_rows (db w)
  /\ db_faults (db w1) = tl (db_faults (db w))
  /\ o = Returns (if next_fails w then []
                  else sort_by (fun a b => (Msg.timestamp a <=? Msg.timestamp b)%Z)
                               (stored sid w)).
Proof.
  intros E. pose proof (getAiChatMessages_result sid w) as R.
  rewrite E in R. simpl in R. subst o.
  revert E. unfold getAiChatMessages, try_catch, db_call.
  destruct w as [u k oa evs [rows sess now nid faults] bk calls clk]; simpl.
  destruct faults as [| [|] fs]; simpl; intros E; inversion E; subst; simpl;
    repeat split.
Qed.

Lemma chat_inv (req : ChatRequest) (w w1 : World) o :
  chat_completions_create req w = (o, w1) ->
  backend_calls w1 = backend_calls w ++ [req] /\ backend w1 = backend w
  /\ db w1 = db w
  /\ o = match backend w req with
         | BackendThrows msg => Throws {| err_message := msg |}
         | Completion content total => Returns (content, total)
         | Malformed type_error => Throws {| err_message := Some type_error |}
         end.
Proof.
  unfold chat_completions_create.
  destruct (backend w req); intros E; inversion E; subst; simpl; auto.
Qed.


Lemma analyze_world (userId : option jsstring) (body : AnalyzeBody) (w : World) :
  snd (analyze userId body w) = snd (analyze_try userId body w).
Proof.
  unfold analyze, try_catch.
  now destruct (analyze_try userId body w) as [[r | e] w'].
Qed.


(** Stepping through a handler: name what the next call returns and
    record what it did. *)
Ltac step_with lem :=
  match goal with
  | |- context [let (_, _) := ?c ?w in _] =>
      let o := fresh "o" in
      let w1 := fresh "w" in
      let E := fresh "E" in
      destruct (c w) as [o w1] eqn:E;
      apply lem in E
  end.









Lemma works_next (w : World) : db_faults (db w) = [] -> next_fails w = false.
Proof. unfold next_fails. now intros ->. Qed.




(** With the database working the history read comes after the user
    turn was stored, so it is never empty and no title is written. *)
Lemma stored_after_insert (sid : jsstring) (w w1 : World) (row : AiChatMessage) :
  chat_rows (db w1) = chat_rows (db w) ++ [row] -> Msg.sessionId row = sid ->
  stored sid w1 <> [].
Proof.
  intros R S. unfold stored. rewrite R, filter_app. simpl.
  rewrite S, str_eqb_refl. intros H. apply app_eq_nil in H as [_ H].
  discriminate H.
Qed.

Lemma title_untouched_when_store_works
      (userId : option jsstring) (body : AnalyzeBody) (w : World) :
  db_faults (db w) = [] ->
  session_rows (db (snd (analyze userId body w))) = session_rows (db w).
Proof.
  intros Hf. rewrite analyze_world.
  generalize (eq_refl (snd (analyze_try userId body w))).
  generalize (snd (analyze_try userId body w)) at 1 3.
  intros wf. unfold analyze_try, bind.
  step_with client_inv. destruct E as (C0 & D0 & B0 & _ & ->).
  destruct (isAiConfigured w); [| intros ->; simpl; now rewrite D0].
  destruct (message body) as [[| c msg] |];
    try (intros ->; simpl; now rewrite D0).
  destruct (sessionId body) as [[| c' sid] |];
    try (intros ->; simpl; now rewrite D0).
  unfold getSecurityEvents.
  step_with create_inv. destruct E as (C1 & B1 & S1 & F1 & R1).
  assert (F0 : db_faults (db w0) = []) by (rewrite D0; exact Hf).
  rewrite (works_next w0 F0) in R1.
  destruct R1 as (turn & -> & R1 & _ & _ & T1).
  step_with read_inv. destruct E as (C2 & B2 & S2 & R2 & F2 & ->).
  assert (F1' : db_faults (db w1) = []) by (rewrite F1, F0; reflexivity).
  rewrite (works_next w1 F1').
  step_with chat_inv. destruct E as (C3 & B3 & D3 & ->).
  match goal with
  | |- context [backend w2 ?q] =>
      destruct (backend w2 q) as [e | content total | terr]
  end.
  { intros ->. simpl. rewrite D3, S2, S1, D0. reflexivity. }
  2:{ intros ->. simpl. rewrite D3, S2, S1, D0. reflexivity. }
  step_with create_inv. destruct E as (C4 & B4 & S4 & F4 & R4).
  assert (F3 : db_faults (db w3) = []).
  { rewrite D3, F2, F1'. reflexivity. }
  rewrite (works_next w3 F3) in R4.
  destruct R4 as (saved & -> & _).
  match goal with
  | |- context [if ?b then _ else _] => destruct b eqn:Hb
  end.
  - exfalso. apply Nat.eqb_eq in Hb.
    rewrite (Permutation_length (sort_by_perm Msg.timestamp _)) in Hb.
    pose proof (@stored_after_insert _ w0 w1 turn R1 T1) as Hs. simpl in Hs.
    destruct (stored (c' :: sid) w1); [congruence | discriminate].
  - intros ->. simpl. rewrite S4, D3, S2, S1, D0. reflexivity.
Qed.

(** C8.  The code at the claim's own example: the first message of an
    empty session, answered successfully.  The handler reads the history
    after it has stored the user turn, so the history is not empty and
    the title stays the placeholder, although the title it would derive
    is the one the claim describes. *)
Theorem first_message_title_not_inferred :
  let text := "Investigate the critical SQL injection alerts from last night please"%string in
  let w := mkWorld true (mkDb [] []) goodAnswer in
  let r := analyze None (mkBody text) w in
  stored (js "s1") w = []
  /\ (exists saved n t,
         fst r = Returns {| status := 200; payload := AnalyzeJson saved n t |})
  /\ List.map Session.title (session_rows (db (snd r)))
     = [js "New Analysis Session"]
  /\ titleOf (js text) = js "Investigate the critical SQL i...".
Proof.
  cbv zeta. split; [reflexivity |]. split; [| split].
  - do 3 eexists. vm_compute. reflexivity.
  - rewrite title_untouched_when_store_works by reflexivity. reflexivity.
  - vm_compute. reflexivity.
Qed.

(** ** The matcher *)

Section MatcherFacts.

Lemma caps_ok_later (st st' : mstate) :
  caps st' = caps st -> pos st <= pos st' -> caps_ok st -> caps_ok st'.
Proof.
  unfold caps_ok. intros -> Hle H. eapply Forall_impl; [| exact H].
  simpl. intros c [H1 H2]. lia.
Qed.

Lemma wf_init (s : jsstring) (i : nat) : i <= List.length s -> wf s (init i).
Proof. intros H. split; [exact H | constructor]. Qed.

(** Iterations keep the state well formed and never move back. *)
Lemma star_loop_wf (s : jsstring) (body : mstate -> list mstate) :
  (forall st st1, wf s st -> In st1 (body st) -> wf s st1 /\ pos st <= pos st1) ->
  forall n st st', wf s st -> In st' (star_loop body n st) ->
                   wf s st' /\ pos st <= pos st'.
Proof.
  intros Hbody. induction n as [| n IH]; simpl; intros st st' Hst Hin.
  - destruct Hin as [<- | []]. now split.
  - apply in_app_or in Hin as [Hin | [<- | []]]; [| now split].
    apply in_flat_map in Hin as (st1 & H1 & Hin).
    destruct (Nat.eqb (pos st1) (pos st)); [destruct Hin |].
    destruct (Hbody _ _ Hst H1) as [Hw1 Hle1].
    destruct (IH _ _ Hw1 Hin) as [Hw' Hle']. split; [exact Hw' | lia].
Qed.

(** A match keeps the state well formed and consumes at least
    [minlen r] code units. *)
Lemma m_wf (r : regex) (s : jsstring) :
  forall st st', wf s st -> In st' (m r s st) ->
                 wf s st' /\ pos st + minlen r <= pos st'.
Proof.
  induction r as [| c | neg items | | a IHa b IHb | a IHa b IHb | a IHa
                  | k a IHa | k | a IHa]; intros st st' Hst Hin;
    cbn [m minlen] in *.
  - destruct Hin as [<- | []]. split; [exact Hst | lia].
  - destruct (nth_error s (pos st)) as [ch |] eqn:E; [| destruct Hin].
    destruct (N.eqb (canon c) (canon ch)); [| destruct Hin].
    destruct Hin as [<- | []].
    assert (pos st < List.length s) by (apply nth_error_Some; congruence).
    destruct Hst as [_ Hc]. split; [split |]; simpl; try lia.
    apply (caps_ok_later (st := st)); simpl; auto.
  - destruct (nth_error s (pos st)) as [ch |] eqn:E; [| destruct Hin].
    destruct (cls_has neg items ch); [| destruct Hin].
    destruct Hin as [<- | []].
    assert (pos st < List.length s) by (apply nth_error_Some; congruence).
    destruct Hst as [_ Hc]. split; [split |]; simpl; try lia.
    apply (caps_ok_later (st := st)); simpl; auto.
  - destruct (at_boundary s (pos st)); [| destruct Hin].
    destruct Hin as [<- | []]. split; [exact Hst | lia].
  - apply in_flat_map in Hin as (st1 & H1 & H2).
    destruct (IHa _ _ Hst H1) as [Hw1 Hl1].
    destruct (IHb _ _ Hw1 H2) as [Hw2 Hl2]. split; [exact Hw2 | lia].
  - apply in_app_or in Hin as [Hin | Hin].
    + destruct (IHa _ _ Hst Hin) as [Hw Hl]. split; [exact Hw | lia].
    + destruct (IHb _ _ Hst Hin) as [Hw Hl]. split; [exact Hw | lia].
  - assert (Hbody : forall st0 st1, wf s st0 -> In st1 (m a s st0) ->
                                    wf s st1 /\ pos st0 <= pos st1).
    { intros st0 st1 H0 H1. destruct (IHa _ _ H0 H1). split; [assumption | lia]. }
    destruct (@star_loop_wf s (m a s) Hbody _ _ _ Hst Hin) as [Hw Hl].
    split; [exact Hw | lia].
  - apply in_map_iff in Hin as (st1 & <- & H1).
    destruct (IHa _ _ Hst H1) as [[Hp Hc] Hl]. simpl.
    split; [split | lia]; simpl; [exact Hp |].
    constructor; simpl; [lia | exact Hc].
  - destruct (get_cap k (caps st)) as [[b e] |].
    + destruct (Nat.leb (pos st + (e - b)) (List.length s)) eqn:El;
        simpl in Hin; [| destruct Hin].
      destruct (same_canon _ _); [| destruct Hin].
      destruct Hin as [<- | []]. apply Nat.leb_le in El.
      destruct Hst as [_ Hc]. split; [split |]; simpl; try lia.
      apply (caps_ok_later (st := st)); simpl; auto; lia.
    + destruct Hin as [<- | []]. split; [exact Hst | lia].
  - destruct (m a s st); [| destruct Hin].
    destruct Hin as [<- | []]. split; [exact Hst | lia].
Qed.

End MatcherFacts.

(** ** Matching in a text and in a longer one

    A match found in [p] is found in every [p ++ t], as long as the
    assertions of the pattern look at nothing beyond the match. *)

Section Extension.
Variables p t : jsstring.

Lemma nth_error_prefix (i : nat) :
  i < List.length p -> nth_error (p ++ t) i = nth_error p i.
Proof. intros H. now apply nth_error_app1. Qed.

Lemma word_at_prefix (i : nat) :
  i < List.length p -> word_at (p ++ t) i = word_at p i.
Proof. intros H. unfold word_at. now rewrite nth_error_prefix. Qed.

Lemma at_boundary_prefix (e : nat) :
  e < List.length p -> at_boundary (p ++ t) e = at_boundary p e.
Proof.
  intros H. unfold at_boundary. rewrite (word_at_prefix H).
  destruct e as [| e']; [reflexivity |].
  rewrite word_at_prefix by lia. reflexivity.
Qed.

Lemma substring_prefix (b e : nat) :
  e <= List.length p -> Js.substring b e (p ++ t) = Js.substring b e p.
Proof.
  intros H. unfold Js.substring.
  destruct (Nat.le_gt_cases b e) as [Hbe | Hbe].
  - rewrite skipn_app, firstn_app, length_skipn.
    replace (e - b - (List.length p - b)) with 0 by lia.
    rewrite firstn_O. apply app_nil_r.
  - replace (e - b) with 0 by lia. reflexivity.
Qed.

Lemma flat_map_agree {A B} (f g : A -> list B) (l : list A) :
  (forall x, In x l -> f x = g x) -> flat_map f l = flat_map g l.
Proof.
  induction l as [| x l IH]; simpl; intros H; [reflexivity |].
  rewrite (H x (or_introl eq_refl)), IH; [reflexivity |].
  intros y Hy. apply H. now right.
Qed.

Lemma bounded_maxlen (a : regex) (s : jsstring) :
  bounded a = true ->
  forall st st', In st' (m a s st) -> pos st' <= pos st + maxlen a.
Proof.
  induction a as [| c | neg items | | a IHa b IHb | a IHa b IHb | a IHa
                  | k a IHa | k | a IHa]; simpl; intros Hb st st' Hin;
    try discriminate.
  - destruct Hin as [<- | []]. lia.
  - destruct (nth_error s (pos st)); [| destruct Hin].
    destruct (N.eqb _ _); [| destruct Hin]. destruct Hin as [<- | []].
    simpl. lia.
  - destruct (nth_error s (pos st)); [| destruct Hin].
    destruct (cls_has _ _ _); [| destruct Hin]. destruct Hin as [<- | []].
    simpl. lia.
  - apply andb_true_iff in Hb as [Ha Hb].
    apply in_flat_map in Hin as (st1 & H1 & H2).
    specialize (IHa Ha _ _ H1). specialize (IHb Hb _ _ H2). lia.
  - apply andb_true_iff in Hb as [Ha Hb].
    apply in_app_or in Hin as [Hin | Hin].
    + specialize (IHa Ha _ _ Hin). lia.
    + specialize (IHb Hb _ _ Hin). lia.
Qed.

(** A bounded pattern that fits into [p] matches the same way in
    [p ++ t]. *)
Lemma bounded_agree (a : regex) :
  bounded a = true ->
  forall st, pos st + maxlen a <= List.length p ->
             m a (p ++ t) st = m a p st.
Proof.
  induction a as [| c | neg items | | a IHa b IHb | a IHa b IHb | a IHa
                  | k a IHa | k | a IHa]; simpl; intros Hb st Hfit;
    try discriminate.
  - reflexivity.
  - rewrite nth_error_prefix by lia. reflexivity.
  - rewrite nth_error_prefix by lia. reflexivity.
  - apply andb_true_iff in Hb as [Ha Hb].
    rewrite (IHa Ha) by lia. apply flat_map_agree. intros st1 H1.
    apply (IHb Hb). pose proof (@bounded_maxlen a p Ha st st1 H1). lia.
  - apply andb_true_iff in Hb as [Ha Hb].
    rewrite (IHa Ha), (IHb Hb) by lia. reflexivity.
Qed.

Lemma star_loop_self (body : mstate -> list mstate) (n : nat) (st : mstate) :
  In st (star_loop body n st).
Proof.
  destruct n; simpl; [now left |]. apply in_or_app. right. now left.
Qed.

(** Iterations found in [p] are found in [p ++ t], with any fuel that
    covers the distance. *)
Lemma star_loop_ext (bp bx : mstate -> list mstate) (g : nat) :
  (forall st st1, wf p st -> In st1 (bp st) -> wf p st1 /\ pos st <= pos st1) ->
  (forall st st1, wf p st -> In st1 (bp st) ->
                  pos st1 + g <= List.length p -> In st1 (bx st)) ->
  forall n st st', wf p st -> In st' (star_loop bp n st) ->
                   pos st' + g <= List.length p ->
                   forall n', pos st' - pos st < n' ->
                              In st' (star_loop bx n' st).
Proof.
  intros Hwf Hext. induction n as [| n IH]; simpl; intros st st' Hst Hin Hg n' Hn'.
  - destruct Hin as [<- | []]. apply star_loop_self.
  - apply in_app_or in Hin as [Hin | [<- | []]]; [| apply star_loop_self].
    apply in_flat_map in Hin as (st1 & H1 & Hin).
    destruct (Nat.eqb (pos st1) (pos st)) eqn:Eq; [destruct Hin |].
    apply Nat.eqb_neq in Eq.
    destruct (Hwf _ _ Hst H1) as [Hw1 Hle1].
    destruct (@star_loop_wf p bp Hwf n st1 st' Hw1 Hin) as [_ Hle'].
    destruct n' as [| n']; [lia |]. simpl. apply in_or_app. left.
    apply in_flat_map. exists st1. split.
    + apply (Hext _ _ Hst H1). lia.
    + apply Nat.eqb_neq in Eq. rewrite Eq.
      apply Nat.eqb_neq in Eq. apply (IH _ _ Hw1 Hin Hg). lia.
Qed.

Lemma m_ext (r : regex) :
  forall g st st',
    local r g = true -> wf p st -> In st' (m r p st) ->
    pos st' + g <= List.length p -> In st' (m r (p ++ t) st).
Proof.
  induction r as [| c | neg items | | a IHa b IHb | a IHa b IHb | a IHa
                  | k a IHa | k | a IHa]; intros g st st' Hl Hst Hin Hg;
    cbn [m local] in *.
  - exact Hin.
  - destruct (nth_error p (pos st)) as [ch |] eqn:E; [| destruct Hin].
    rewrite nth_error_prefix, E; [exact Hin |].
    apply nth_error_Some. congruence.
  - destruct (nth_error p (pos st)) as [ch |] eqn:E; [| destruct Hin].
    rewrite nth_error_prefix, E; [exact Hin |].
    apply nth_error_Some. congruence.
  - apply Nat.leb_le in Hl.
    destruct (at_boundary p (pos st)) eqn:E; [| destruct Hin].
    destruct Hin as [<- | []].
    rewrite at_boundary_prefix, E by lia. now left.
  - apply andb_true_iff in Hl as [Hla Hlb].
    apply in_flat_map in Hin as (st1 & H1 & H2).
    destruct (@m_wf a p st st1 Hst H1) as [Hw1 _].
    destruct (@m_wf b p st1 st' Hw1 H2) as [_ Hmin].
    apply in_flat_map. exists st1. split.
    + apply (IHa (g + minlen b)); auto. lia.
    + apply (IHb g); auto.
  - apply andb_true_iff in Hl as [Hla Hlb].
    apply in_app_or in Hin as [Hin | Hin]; apply in_or_app.
    + left. apply (IHa g); auto.
    + right. apply (IHb g); auto.
  - assert (Hwf : forall st0 st1, wf p st0 -> In st1 (m a p st0) ->
                                  wf p st1 /\ pos st0 <= pos st1).
    { intros st0 st1 H0 H1. destruct (@m_wf a p st0 st1 H0 H1).
      split; [assumption | lia]. }
    apply (@star_loop_ext (m a p) (m a (p ++ t)) g Hwf) with
      (n := S (List.length p - pos st)); auto.
    + intros st0 st1 H0 H1 H2. apply (IHa g); auto.
    + rewrite length_app. lia.
  - apply in_map_iff in Hin as (st1 & <- & H1). simpl in Hg.
    apply in_map_iff. exists st1. split; [reflexivity |].
    apply (IHa g); auto.
  - destruct (get_cap k (caps st)) as [[b e] |] eqn:Ec; [| exact Hin].
    destruct (Nat.leb (pos st + (e - b)) (List.length p)) eqn:El;
      simpl in Hin; [| destruct Hin].
    apply Nat.leb_le in El.
    assert (He : e <= List.length p).
    { destruct Hst as [Hp Hc]. clear -Ec Hc Hp. unfold caps_ok in Hc.
      induction (caps st) as [| [k' be] cs IH]; simpl in Ec; [discriminate |].
      inversion Hc as [| ? ? [_ H1] H2]; subst.
      destruct (Nat.eqb k k').
      - inversion Ec; subst. simpl in H1. lia.
      - now apply IH. }
    rewrite length_app.
    replace (Nat.leb (pos st + (e - b)) (List.length p + List.length t))
      with true by (symmetry; apply Nat.leb_le; lia).
    rewrite !substring_prefix by lia. exact Hin.
  - apply andb_true_iff in Hl as [Hb Hm]. apply Nat.leb_le in Hm.
    destruct (m a p st) eqn:E; [| destruct Hin].
    destruct Hin as [<- | []].
    rewrite (@bounded_agree a Hb st), E by lia. now left.
Qed.

End Extension.

(** ** Searching and replacing *)

Lemma search_from_none (r : regex) (s : jsstring) (n : nat) :
  forall i, search_from r s n i = None
            <-> (forall j, i <= j <= i + n -> exec_at r s j = None).
Proof.
  induction n as [| n IH]; intros i; simpl.
  - destruct (exec_at r s i) as [e |] eqn:E; split; intros H.
    + discriminate H.
    + rewrite H in E by lia. discriminate E.
    + intros j Hj. replace j with i by lia. exact E.
    + reflexivity.
  - destruct (exec_at r s i) as [e |] eqn:E; split; intros H.
    + discriminate H.
    + rewrite H in E by lia. discriminate E.
    + intros j Hj. destruct (Nat.eq_dec j i) as [-> | Hne]; [exact E |].
      apply (proj1 (IH (S i)) H). lia.
    + apply IH. intros j Hj. apply H. lia.
Qed.

Lemma has_match_false (r : regex) (s : jsstring) :
  has_match r s = false
  <-> (forall j, j <= List.length s -> exec_at r s j = None).
Proof.
  unfold has_match, search. simpl Nat.leb. cbv iota.
  destruct (search_from r s (List.length s - 0) 0) eqn:E.
  - split; [discriminate |]. intros H.
    assert (N : search_from r s (List.length s - 0) 0 = None).
    { apply search_from_none. intros j Hj. apply H. lia. }
    rewrite N in E. discriminate E.
  - split; [| reflexivity]. intros _ j Hj.
    apply (proj1 (search_from_none r s (List.length s - 0) 0) E). lia.
Qed.

(** What a successful search returns: a match that starts at or after
    [lastIndex], consumes at least [minlen r] and ends inside the text. *)
Lemma search_from_some (r : regex) (s : jsstring) (n : nat) :
  forall i b e, search_from r s n i = Some (b, e) ->
                i <= b <= i + n /\ exec_at r s b = Some e.
Proof.
  induction n as [| n IH]; intros i b e; simpl;
    destruct (exec_at r s i) as [e' |] eqn:E; intros H; try discriminate H.
  - inversion H; subst. split; [lia | exact E].
  - inversion H; subst. split; [lia | exact E].
  - apply IH in H. split; [lia | tauto].
Qed.

Lemma exec_at_span (r : regex) (s : jsstring) (b e : nat) :
  b <= List.length s -> exec_at r s b = Some e ->
  b + minlen r <= e <= List.length s.
Proof.
  unfold exec_at. intros Hb H.
  destruct (m r s (init b)) as [| st l] eqn:E; [discriminate H |].
  inversion H; subst.
  destruct (@m_wf r s (init b) st (wf_init s Hb)) as [[Hp _] Hm].
  - rewrite E. now left.
  - simpl in Hm. lia.
Qed.

Lemma search_some (r : regex) (s : jsstring) (i b e : nat) :
  search r s i = Some (b, e) ->
  i <= b /\ b + minlen r <= e <= List.length s.
Proof.
  unfold search. destruct (Nat.leb i (List.length s)) eqn:Ei; [| discriminate].
  apply Nat.leb_le in Ei. intros H. apply search_from_some in H as [Hb He].
  split; [lia |]. apply exec_at_span; [lia | exact He].
Qed.

(** A pattern that does not occur in a text does not occur in its
    prefixes. *)
Lemma has_match_prefix (r : regex) (n : nat) (x : jsstring) :
  local r 0 = true -> has_match r x = false ->
  has_match r (firstn n x) = false.
Proof.
  intros Hl Hx. apply has_match_false. intros j Hj.
  destruct (exec_at r (firstn n x) j) as [e |] eqn:E; [exfalso | reflexivity].
  unfold exec_at in E.
  destruct (m r (firstn n x) (init j)) as [| st l] eqn:Em; [discriminate E |].
  assert (Hin : In st (m r (firstn n x) (init j))) by (rewrite Em; now left).
  destruct (@m_wf r _ _ _ (wf_init _ Hj) Hin) as [[Hp _] _].
  apply (@m_ext (firstn n x) (skipn n x) r 0) in Hin;
    [| exact Hl | now apply wf_init | lia].
  rewrite firstn_skipn in Hin.
  assert (Hnone : exec_at r x j = None).
  { apply (proj1 (has_match_false r x) Hx).
    rewrite length_firstn in Hj. lia. }
  unfold exec_at in Hnone. destruct (m r x (init j)); [destruct Hin | discriminate].
Qed.

Lemma replace_all_free (r : regex) (rep s : jsstring) :
  has_match r s = false -> replace_all r rep s = s.
Proof.
  unfold has_match, replace_all. simpl.
  destruct (search r s 0); [discriminate | reflexivity].
Qed.

(** Replacing matches of at least [k] code units by [rep] scales the
    length by at most [c2 / c1], when [rep] is that much longer at most. *)
Lemma replace_loop_length (r : regex) (rep s : jsstring) (c1 c2 : nat) :
  c1 <= c2 -> c1 * List.length rep <= c2 * minlen r ->
  forall n lastIndex nextSrc,
    nextSrc <= lastIndex -> nextSrc <= List.length s ->
    c1 * List.length (replace_loop r rep s n lastIndex nextSrc)
    <= c2 * (List.length s - nextSrc).
Proof.
  intros Hc Hrep.
  induction n as [| n IH]; intros lastIndex nextSrc Hle Hlen; simpl.
  - rewrite length_skipn. nia.
  - destruct (search r s lastIndex) as [[b e] |] eqn:E.
    + apply search_some in E as (Hb & Hmin & He).
      rewrite !length_app. unfold Js.substring.
      rewrite length_firstn, length_skipn.
      assert (IH' := IH (if Nat.eqb e b then S e else e) e).
      assert (He' : e <= (if Nat.eqb e b then S e else e))
        by (destruct (Nat.eqb e b); lia).
      specialize (IH' He' He).
      rewrite Nat.min_l by lia. nia.
    + rewrite length_skipn. nia.
Qed.

Lemma replace_all_length (r : regex) (rep s : jsstring) (c1 c2 : nat) :
  c1 <= c2 -> c1 * List.length rep <= c2 * minlen r ->
  c1 * List.length (replace_all r rep s) <= c2 * List.length s.
Proof.
  intros Hc Hrep. unfold replace_all.
  pose proof (@replace_loop_length r rep s c1 c2 Hc Hrep
                (S (S (List.length s))) 0 0 (Nat.le_refl 0) (Nat.le_0_l _)).
  lia.
Qed.

(** ** The sanitizer *)

Lemma slice0_firstn {A} (s : list A) (e : Z) :
  exists k, Js.slice0 s e = firstn k s.
Proof. unfold Js.slice0. eexists. reflexivity. Qed.

Lemma slice0_length {A} (s : list A) (e : Z) :
  (0 <= e)%Z -> (Z.of_nat (List.length (Js.slice0 s e)) <= e)%Z.
Proof.
  intros H. unfold Js.slice0. destruct (Z.ltb_spec e 0); [lia |].
  rewrite length_firstn. lia.
Qed.

Lemma slice0_nonempty {A} (s : list A) (e : Z) :
  (1 <= e)%Z -> s <> [] -> Js.slice0 s e <> [].
Proof.
  intros H Hs. unfold Js.slice0. destruct (Z.ltb_spec e 0); [lia |].
  destruct s as [| c s]; [congruence |].
  destruct (Z.to_nat (Z.min e (Z.of_nat (List.length (c :: s))))) eqn:E.
  - simpl List.length in E. lia.
  - discriminate.
Qed.

Lemma slice0_idem {A} (s : list A) (e : Z) :
  (0 <= e)%Z -> Js.slice0 (Js.slice0 s e) e = Js.slice0 s e.
Proof.
  intros H. pose proof (slice0_length s H) as L.
  unfold Js.slice0 at 1. destruct (Z.ltb_spec e 0); [lia |].
  apply firstn_all2. lia.
Qed.

Lemma sanitize_steps (c : N) (s : jsstring) (maxLength : Z) :
  sanitizeAiResponse (Some (c :: s)) maxLength
  = replace_all handler_bare_re []
      (replace_all handler_quoted_re []
         (replace_all dataurl_re (js "data-blocked:")
            (replace_all jsurl_re (js "javascript-blocked:")
               (replace_all iframe_re (js "[removed iframe]")
                  (replace_all script_re (js "[removed script]")
                     (Js.slice0 (c :: s) maxLength)))))).
Proof. reflexivity. Qed.

Lemma blocked_local : forall r, In r blocked -> local r 0 = true.
Proof.
  intros r H. unfold blocked in H. simpl in H.
  repeat destruct H as [<- | H]; try (vm_compute; reflexivity). destruct H.
Qed.

Lemma pattern_free_spec (s : jsstring) :
  pattern_free (Some s) = true <-> (forall r, In r blocked -> has_match r s = false).
Proof.
  unfold pattern_free. rewrite forallb_forall. split; intros H r Hr.
  - apply negb_true_iff. now apply H.
  - apply negb_true_iff. now apply H.
Qed.

Lemma pattern_free_prefix (n : nat) (x : jsstring) :
  pattern_free (Some x) = true -> pattern_free (Some (firstn n x)) = true.
Proof.
  rewrite !pattern_free_spec. intros H r Hr.
  apply has_match_prefix; [now apply blocked_local | now apply H].
Qed.

(** Where nothing is blocked, the sanitizer only cuts. *)
Lemma sanitize_of_free (c : N) (s : jsstring) (maxLength : Z) :
  pattern_free (Some (Js.slice0 (c :: s) maxLength)) = true ->
  sanitizeAiResponse (Some (c :: s)) maxLength = Js.slice0 (c :: s) maxLength.
Proof.
  rewrite pattern_free_spec. intros H. rewrite sanitize_steps.
  assert (Hr : forall r rep, In r blocked ->
                 replace_all r rep (Js.slice0 (c :: s) maxLength)
                 = Js.slice0 (c :: s) maxLength).
  { intros r rep Hr. apply replace_all_free. now apply H. }
  unfold blocked in Hr. simpl in Hr.
  rewrite (Hr script_re) by tauto. rewrite (Hr iframe_re) by tauto.
  rewrite (Hr jsurl_re) by tauto. rewrite (Hr dataurl_re) by tauto.
  rewrite (Hr handler_quoted_re) by tauto. rewrite (Hr handler_bare_re) by tauto.
  reflexivity.
Qed.

(** The replacements lengthen a text by at most 19/11: only a
    [javascript:] token grows, from at least 11 code units to 19. *)
Lemma sanitize_growth (c : N) (s : jsstring) (maxLength : Z) :
  11 * List.length (sanitizeAiResponse (Some (c :: s)) maxLength)
  <= 19 * List.length (Js.slice0 (c :: s) maxLength).
Proof.
  rewrite sanitize_steps.
  set (s0 := Js.slice0 (c :: s) maxLength).
  set (s1 := replace_all script_re (js "[removed script]") s0).
  set (s2 := replace_all iframe_re (js "[removed iframe]") s1).
  set (s3 := replace_all jsurl_re (js "javascript-blocked:") s2).
  set (s4 := replace_all dataurl_re (js "data-blocked:") s3).
  set (s5 := replace_all handler_quoted_re [] s4).
  assert (H1 : 1 * List.length s1 <= 1 * List.length s0).
  { apply replace_all_length; [lia | vm_compute; lia]. }
  assert (H2 : 1 * List.length s2 <= 1 * List.length s1).
  { apply replace_all_length; [lia | vm_compute; lia]. }
  assert (H3 : 11 * List.length s3 <= 19 * List.length s2).
  { apply replace_all_length; [lia | vm_compute; lia]. }
  assert (H4 : 1 * List.length s4 <= 1 * List.length s3).
  { apply replace_all_length; [lia | vm_compute; lia]. }
  assert (H5 : 1 * List.length s5 <= 1 * List.length s4).
  { apply replace_all_length; [lia | vm_compute; lia]. }
  assert (H6 : 1 * List.length (replace_all handler_bare_re [] s5)
               <= 1 * List.length s5).
  { apply replace_all_length; [lia | vm_compute; lia]. }
  lia.
Qed.

Lemma sanitize_fallback : sanitize (Some fallback) = fallback.
Proof. vm_compute. reflexivity. Qed.

(** C3, as stated, fails: the result can be longer than [maxLength],
    after a replacement that lengthens the text or by the fallback
    itself, and it can be empty. *)
Lemma sanitize_bounds_counterexample :
  sanitizeAiResponse (Some (js "javascript:")) 11 = js "javascript-blocked:"
  /\ 11 < List.length (sanitizeAiResponse (Some (js "javascript:")) 11)
  /\ sanitizeAiResponse (Some (js "onclick=x")) 8000 = []
  /\ 10 < List.length (sanitizeAiResponse None 10).
Proof.
  split; [vm_compute; reflexivity |]. split; [vm_compute; lia |].
  split; [vm_compute; reflexivity | vm_compute; lia].
Qed.

(** C3, amended.  On empty or absent input the result is the fixed
    fallback apology string, 71 code units long, whatever [maxLength]
    is.  On any other input the result is computed from the first
    [maxLength] code units: it has at most 19/11 of their number, and
    where no blocked pattern occurs in them it is exactly them, so it
    is not longer than a non-negative [maxLength] and not empty for a
    positive one. *)
Theorem sanitize_fallback_or_cut (response : option jsstring) (maxLength : Z) :
  let out := sanitizeAiResponse response maxLength in
  match response with
  | Some (c :: s) =>
      let cut := Js.slice0 (c :: s) maxLength in
      11 * List.length out <= 19 * List.length cut
      /\ ((0 <= maxLength)%Z ->
          (11 * Z.of_nat (List.length out) <= 19 * maxLength)%Z)
      /\ (pattern_free (Some cut) = true ->
          out = cut
          /\ ((0 <= maxLength)%Z -> (Z.of_nat (List.length out) <= maxLength)%Z)
          /\ ((1 <= maxLength)%Z -> out <> []))
  | _ => out = fallback /\ List.length out = 71 /\ out <> []
  end.
Proof.
  cbv zeta. destruct response as [[| c s] |]; unfold jsstring in *.
  - repeat split. discriminate.
  - pose proof (sanitize_growth c s maxLength) as G. split; [exact G |].
    split.
    + intros H. pose proof (slice0_length (c :: s) H). unfold jsstring in *. lia.
    + intros Hf. rewrite (sanitize_of_free _ _ _ Hf).
      split; [reflexivity |]. split.
      * apply slice0_length.
      * intros H. apply slice0_nonempty; [exact H | discriminate].
  - repeat split. discriminate.
Qed.

Lemma sanitize_fallback_or_cut_witness :
  pattern_free (Some (Js.slice0 (js "Two failed logins, then a success.") 10)) = true
  /\ sanitizeAiResponse (Some (js "Two failed logins, then a success.")) 10
     = js "Two failed".
Proof.
  split; [vm_compute; reflexivity |].
  pose proof (sanitize_fallback_or_cut
                (Some (js "Two failed logins, then a success.")) 10) as H.
  cbv zeta in H. change (js "Two failed logins, then a success.")
    with (84%N :: js "wo failed logins, then a success.") in H at 1.
  cbv iota beta in H. destruct H as (_ & _ & H).
  destruct H as [H _]; [vm_compute; reflexivity |].
  rewrite H. vm_compute. reflexivity.
Defined.

(** C9.  For every input free of the blocked patterns (and for [null]),
    sanitizing the sanitized text gives the sanitized text. *)
Theorem sanitize_idempotent (x : option jsstring) :
  pattern_free x = true -> sanitize (Some (sanitize x)) = sanitize x.
Proof.
  intros Hf. destruct x as [[| c s] |]; try apply sanitize_fallback.
  unfold sanitize, jsstring in *.
  destruct (slice0_firstn (c :: s) 8000) as [k Ek].
  assert (Hcut : pattern_free (Some (Js.slice0 (c :: s) 8000)) = true).
  { rewrite Ek. now apply pattern_free_prefix. }
  rewrite (sanitize_of_free _ _ _ Hcut).
  assert (Hne : Js.slice0 (c :: s) 8000 <> []).
  { apply slice0_nonempty; [lia | discriminate]. }
  assert (Hidem : Js.slice0 (Js.slice0 (c :: s) 8000) 8000 = Js.slice0 (c :: s) 8000).
  { apply slice0_idem. lia. }
  clear Ek. revert Hcut Hne Hidem.
  generalize (Js.slice0 (c :: s) 8000). intros [| c' s'] Hcut Hne Hidem;
    [congruence |].
  rewrite sanitize_of_free; rewrite Hidem; [reflexivity | exact Hcut].
Qed.

Lemma sanitize_idempotent_witness :
  pattern_free (Some (js "<b>No threat</b> found on host-7")) = true
  /\ sanitize (Some (sanitize (Some (js "<b>No threat</b> found on host-7"))))
     = sanitize (Some (js "<b>No threat</b> found on host-7")).
Proof.
  split; [vm_compute; reflexivity |].
  apply (sanitize_idempotent (Some (js "<b>No threat</b> found on host-7"))).
  vm_compute; reflexivity.
Defined.

(** * More of the routes and of the storage layer *)

(** ** The analysis handler: every outcome *)

(** Stepping through a handler without looking at the call. *)
Ltac step_any :=
  match goal with
  | |- context [let (_, _) := ?c ?w in _] =>
      let o := fresh "o" in
      let w1 := fresh "w" in
      destruct (c w) as [[o | o] w1]
  end.

Lemma analyze_try_status (userId : option jsstring) (body : AnalyzeBody)
      (w : World) (r : Response) :
  fst (analyze_try userId body w) = Returns r ->
  status r = 200 \/ status r = 400 \/ status r = 503.
Proof.
  unfold analyze_try, bind.
  step_with client_inv. destruct E as (_ & _ & _ & _ & ->).
  destruct (isAiConfigured w); [| simpl; intros E; inversion E; auto].
  destruct (message body) as [[| c msg] |];
    try (simpl; intros E; inversion E; now auto).
  destruct (sessionId body) as [[| c' sid] |];
    try (simpl; intros E; inversion E; now auto).
  unfold getSecurityEvents.
  step_any; [| discriminate].
  step_any; [| discriminate].
  step_any; [| discriminate].
  step_any; [| discriminate].
  match goal with
  | |- context [if ?b then _ else _] => destruct b
  end.
  - step_any; simpl; [| discriminate]. intros E. inversion E. auto.
  - simpl. intros E. inversion E. auto.
Qed.

(** X1.  The analysis handler always answers: no exception leaves it,
    and the status is 200, 400, 500 or 503. *)
Theorem analyze_always_answers
        (userId : option jsstring) (body : AnalyzeBody) (w : World) :
  exists r, fst (analyze userId body w) = Returns r
            /\ In (status r) [200; 400; 500; 503].
Proof.
  unfold analyze, try_catch.
  pose proof (@analyze_try_status userId body w) as H.
  destruct (analyze_try userId body w) as [[r | e] w'].
  - exists r. split; [reflexivity |]. simpl in *.
    destruct (H r eq_refl) as [-> | [-> | ->]]; auto.
  - eexists. split; [reflexivity |]. simpl. auto.
Qed.

(** X2.  With the backend configured, a request without a message or
    without a session identifier (absent or empty) is answered 400
    before anything happens: nothing is stored and the backend is not
    called. *)
Theorem analyze_rejects_incomplete
        (userId : option jsstring) (body : AnalyzeBody) (w : World) :
  isAiConfigured w = true ->
  Js.truthy_opt (message body) = false \/ Js.truthy_opt (sessionId body) = false ->
  let w' := snd (analyze userId body w) in
  fst (analyze userId body w)
  = Returns {| status := 400;
               payload := ErrorJson (js "Message and sessionId are required")
                                    None None |}
  /\ db w' = db w /\ backend_calls w' = backend_calls w
  /\ securityEvents w' = securityEvents w.
Proof.
  intros Hc Hb. cbv zeta.
  generalize (eq_refl (analyze userId body w)).
  generalize (analyze userId body w) at 1 3 4 5 6.
  intros r. unfold analyze, try_catch, analyze_try, bind.
  step_with client_inv. destruct E as (C0 & D0 & _ & S0 & ->).
  rewrite Hc.
  destruct (message body) as [[| c msg] |], (sessionId body) as [[| c' sid] |];
    simpl in Hb; try (destruct Hb; discriminate);
    intros ->; simpl; auto.
Qed.

Lemma analyze_rejects_incomplete_witness :
  let w := mkWorld true (mkDb [storedSystemTurn] []) goodAnswer in
  let body := {| sessionId := Some (js "s1"); message := Some [];
                 eventIds := None; filters := None |} in
  isAiConfigured w = true
  /\ (exists r, fst (analyze None body w) = Returns r /\ status r = 400)
  /\ db (snd (analyze None body w)) = db w.
Proof.
  cbv zeta. split; [reflexivity |].
  destruct (@analyze_rejects_incomplete None
              {| sessionId := Some (js "s1"); message := Some [];
                 eventIds := None; filters := None |}
              (mkWorld true (mkDb [storedSystemTurn] []) goodAnswer)
              eq_refl (or_introl eq_refl)) as (E & D & _).
  split; [| exact D]. eexists. split; [exact E | reflexivity].
Defined.

(** X3.  When the insert of the user turn fails, the handler answers
    500 "Failed to analyze security events", the backend is not called
    and no message is stored. *)
Theorem analyze_store_failure
        (userId : option jsstring) (body : AnalyzeBody) (w : World) :
  isAiConfigured w = true ->
  Js.truthy_opt (message body) = true -> Js.truthy_opt (sessionId body) = true ->
  next_fails w = true ->
  let w' := snd (analyze userId body w) in
  (exists details,
      fst (analyze userId body w)
      = Returns {| status := 500;
                   payload := ErrorJson (js "Failed to analyze security events")
                                        None (Some details) |})
  /\ backend_calls w' = backend_calls w
  /\ chat_rows (db w') = chat_rows (db w)
  /\ session_rows (db w') = session_rows (db w).
Proof.
  intros Hc Hm Hs Hf. cbv zeta.
  generalize (eq_refl (analyze userId body w)).
  generalize (analyze userId body w) at 1 3 4 5 6.
  intros r. unfold analyze, try_catch, analyze_try, bind.
  step_with client_inv. destruct E as (C0 & D0 & _ & S0 & ->).
  rewrite Hc.
  destruct (message body) as [[| c msg] |]; try discriminate Hm.
  destruct (sessionId body) as [[| c' sid] |]; try discriminate Hs.
  unfold getSecurityEvents.
  step_with create_inv. destruct E as (C1 & B1 & S1 & F1 & R1).
  assert (Hf0 : next_fails w0 = true) by (unfold next_fails; now rewrite D0).
  rewrite Hf0 in R1. destruct R1 as ((e & ->) & R1).
  intros ->. simpl.
  split; [eexists; reflexivity |]. rewrite C1, R1, S1, C0, D0. auto.
Qed.

Lemma analyze_store_failure_witness :
  let w := mkWorld true (mkDb [storedSystemTurn] [true]) goodAnswer in
  isAiConfigured w = true /\ next_fails w = true
  /\ backend_calls (snd (analyze None (mkBody "Any brute force today?") w)) = []
  /\ chat_rows (db (snd (analyze None (mkBody "Any brute force today?") w)))
     = [storedSystemTurn].
Proof.
  cbv zeta. split; [reflexivity |]. split; [reflexivity |].
  destruct (@analyze_store_failure None (mkBody "Any brute force today?")
              (mkWorld true (mkDb [storedSystemTurn] [true]) goodAnswer)
              eq_refl eq_refl eq_refl eq_refl) as (_ & C & R & _).
  split; [exact C | exact R].
Defined.

(** ** The analysis handler: the successful turn *)







(** ** The quick-analyze handler *)

Lemma quick_world (body : QuickBody) (w : World) :
  snd (quick_analyze body w) = snd (quick_analyze_try body w).
Proof.
  unfold quick_analyze, try_catch.
  now destruct (quick_analyze_try body w) as [[r | e] w'].
Qed.

Lemma chat_events (req : ChatRequest) (w : World) :
  securityEvents (snd (chat_completions_create req w)) = securityEvents w.
Proof.
  unfold chat_completions_create. now destruct (backend w req).
Qed.

(** X6.  Quick analysis is stateless: whatever the request and the
    backend do, the database and the event store are left as they were,
    the handler answers with status 200, 400, 500 or 503 without
    throwing, and it calls the backend at most once. *)
Theorem quick_analyze_stateless (body : QuickBody) (w : World) :
  let w' := snd (quick_analyze body w) in
  (exists r, fst (quick_analyze body w) = Returns r
             /\ In (status r) [200; 400; 500; 503])
  /\ db w' = db w /\ securityEvents w' = securityEvents w
  /\ (backend_calls w' = backend_calls w
      \/ exists req, backend_calls w' = backend_calls w ++ [req]).
Proof.
  cbv zeta.
  generalize (eq_refl (quick_analyze body w)).
  generalize (quick_analyze body w) at 1 3 4 5 6 7.
  intros r. unfold quick_analyze, try_catch, quick_analyze_try, bind.
  step_with client_inv. destruct E as (C0 & D0 & B0 & S0 & ->).
  destruct (isAiConfigured w).
  2:{ intros ->. simpl. split; [eexists; split; [reflexivity | simpl; auto] |].
      auto. }
  destruct (question body) as [[| c q] |].
  1,3: intros ->; simpl;
    (split; [eexists; split; [reflexivity | simpl; auto] |]); auto.
  unfold getSecurityEvents.
  match goal with
  | |- context [chat_completions_create ?q w0] =>
      pose proof (chat_events q w0) as S1;
      destruct (chat_completions_create q w0) as [o w1] eqn:E
  end.
  simpl in S1. apply chat_inv in E as (C1 & B1 & D1 & ->).
  match goal with
  | |- context [backend w0 ?q] => destruct (backend w0 q)
  end; intros ->; simpl;
    (split; [eexists; split; [reflexivity | simpl; auto] |]);
    rewrite D1, D0, S1, S0; (split; [reflexivity |]);
    (split; [reflexivity |]); right; eexists; rewrite C1, C0; reflexivity.
Qed.

(** X7.  With the backend configured, a quick-analyze request without a
    question is answered 400 and the backend is not called.  Otherwise
    the backend gets one request, with model gpt-5, at most 2048
    completion tokens and exactly two messages, the system instruction
    over the selected context and the question: no history is replayed.
    If the call throws, or resolves with a value of which no content can
    be read (no [choices] array, or a content that is no string), the
    answer is 500 "Failed to analyze" with the error's message as it is;
    if it resolves with a completion, the answer is 200 with the
    sanitized text and the number of context events. *)
Theorem quick_analyze_outcomes (body : QuickBody) (w : World) :
  isAiConfigured w = true ->
  let w' := snd (quick_analyze body w) in
  match question body with
  | Some (c :: q) =>
      exists allEvents,
        fst (getSecurityEvents w) = Returns allEvents
        /\ let ctx := selectContextQuick allEvents (q_eventIds body) in
           let req :=
             {| model := js "gpt-5";
                messages :=
                  [{| p_role := js "system";
                      p_content := QuickPrompt (eventContextQuick ctx) |};
                   {| p_role := js "user"; p_content := Text (c :: q) |}];
                max_completion_tokens := 2048 |} in
           backend_calls w' = backend_calls w ++ [req]
           /\ fst (quick_analyze body w)
              = Returns
                  match backend w req with
                  | BackendThrows e =>
                      {| status := 500;
                         payload := ErrorJson (js "Failed to analyze") None e |}
                  | Malformed type_error =>
                      {| status := 500;
                         payload := ErrorJson (js "Failed to analyze") None
                                              (Some type_error) |}
                  | Completion content _ =>
                      {| status := 200;
                         payload := QuickJson (sanitize content)
                                              (List.length ctx) |}
                  end
  | _ =>
      fst (quick_analyze body w)
      = Returns {| status := 400;
                   payload := ErrorJson (js "Question is required") None None |}
      /\ backend_calls w' = backend_calls w
  end.
Proof.
  intros Hc. cbv zeta.
  generalize (eq_refl (quick_analyze body w)).
  generalize (quick_analyze body w) at 1 3 4 5 6.
  intros r. unfold quick_analyze, try_catch, quick_analyze_try, bind.
  step_with client_inv. destruct E as (C0 & D0 & B0 & S0 & ->).
  rewrite Hc.
  destruct (question body) as [[| c q] |].
  1,3: intros ->; simpl; auto.
  unfold getSecurityEvents. rewrite S0.
  step_with chat_inv. destruct E as (C1 & B1 & D1 & ->).
  rewrite B0.
  match goal with
  | |- context [backend w ?q] => destruct (backend w q) eqn:Eb
  end; intros ->; simpl;
    eexists; (split; [reflexivity |]); rewrite Eb, C1, C0; split; reflexivity.
Qed.

Lemma quick_analyze_outcomes_witness :
  let w := mkWorld true (mkDb [storedSystemTurn] []) goodAnswer in
  let body := {| question := Some (js "Anything odd?"); q_eventIds := None |} in
  isAiConfigured w = true
  /\ fst (quick_analyze body w)
     = Returns {| status := 200;
                  payload := QuickJson (js "Two failed logins, then a success.") 3 |}.
Proof.
  cbv zeta. split; [reflexivity |].
  pose proof (@quick_analyze_outcomes
                {| question := Some (js "Anything odd?"); q_eventIds := None |}
                (mkWorld true (mkDb [storedSystemTurn] []) goodAnswer) eq_refl) as H.
  cbv zeta in H. simpl question in H.
  change (js "Anything odd?") with (65%N :: js "nything odd?") in H.
  cbv iota beta in H. destruct H as (allEvents & Hev & _ & Hr).
  change (js "Anything odd?") with (65%N :: js "nything odd?").
  rewrite Hr. inversion Hev. vm_compute. reflexivity.
Defined.

(** ** The backend client *)

(** X8.  The client is built on the first call of a configured server
    and kept: a second call returns the same client and changes
    nothing, and a client built earlier is returned as it is, whatever
    the environment holds now.  Without configuration there is no
    client, kept or not, and nothing changes. *)
Theorem client_built_once (w : World) :
  (isAiConfigured w = false -> getOpenAiClient w = (Returns None, w))
  /\ (isAiConfigured w = true ->
      exists c w1,
        getOpenAiClient w = (Returns (Some c), w1)
        /\ openai w1 = Some c
        /\ (openai w = None -> c = (env_base_url w, env_api_key w))
        /\ (forall c0, openai w = Some c0 -> c = c0 /\ w1 = w)
        /\ getOpenAiClient w1 = (Returns (Some c), w1)).
Proof.
  unfold getOpenAiClient. split; intros H; rewrite H; simpl; [reflexivity |].
  destruct (openai w) as [c0 |] eqn:E.
  - exists c0, w. rewrite H, E. simpl. repeat split; try congruence.
  - eexists. eexists. split; [reflexivity |].
    unfold isAiConfigured in *. simpl. rewrite H. simpl.
    repeat split; discriminate.
Qed.

Lemma client_built_once_witness :
  let w := mkWorld true (mkDb [] []) goodAnswer in
  isAiConfigured w = true
  /\ exists w1, getOpenAiClient w
                = (Returns (Some (Some (js "https://ai.example/v1"),
                                  Some (js "secret"))), w1)
                /\ getOpenAiClient w1 = getOpenAiClient w.
Proof.
  cbv zeta. split; [reflexivity |].
  destruct (proj2 (client_built_once (mkWorld true (mkDb [] []) goodAnswer)) eq_refl)
    as (c & w1 & E & _ & Hc & _ & E2).
  exists w1. rewrite E, E2. rewrite (Hc eq_refl). split; reflexivity.
Defined.

(** ** The event store *)

Section SortTotal.
Context {A : Type} (le : A -> A -> bool).
Hypothesis le_total : forall a b, le a b = false -> le b a = true.
Hypothesis le_trans : forall a b c, le a b = true -> le b c = true -> le a c = true.

Lemma insert_le_perm (x : A) (l : list A) :
  Permutation (insert_by le x l) (x :: l).
Proof.
  induction l as [| y l IH]; simpl; [reflexivity |].
  destruct (le x y); [reflexivity |].
  rewrite IH. apply perm_swap.
Qed.

Lemma sort_le_perm (l : list A) : Permutation (sort_by le l) l.
Proof.
  induction l as [| x l IH]; [reflexivity |].
  change (sort_by le (x :: l)) with (insert_by le x (sort_by le l)).
  rewrite insert_le_perm. now constructor.
Qed.

Lemma insert_le_sorted (x : A) (l : list A) :
  StronglySorted (fun a b => le a b = true) l ->
  StronglySorted (fun a b => le a b = true) (insert_by le x l).
Proof.
  induction 1 as [| y l Hs IH Hy]; simpl.
  - repeat constructor.
  - destruct (le x y) eqn:Exy.
    + constructor; [now constructor |].
      constructor; [exact Exy |].
      eapply Forall_impl; [| exact Hy]. simpl. intros z Hz.
      exact (@le_trans x y z Exy Hz).
    + constructor; [exact IH |].
      eapply Permutation_Forall; [symmetry; apply insert_le_perm |].
      constructor; [now apply le_total | exact Hy].
Qed.

Lemma sort_le_sorted (l : list A) :
  StronglySorted (fun a b => le a b = true) (sort_by le l).
Proof.
  induction l as [| x l IH]; [constructor |].
  change (sort_by le (x :: l)) with (insert_by le x (sort_by le l)).
  now apply insert_le_sorted.
Qed.

(** In a sorted list every element of a front part may precede every
    element of the rest. *)
Lemma sorted_split (n : nat) (l : list A) :
  StronglySorted (fun a b => le a b = true) l ->
  forall a b, In a (firstn n l) -> In b (skipn n l) -> le a b = true.
Proof.
  intros Hs. revert n. induction Hs as [| x l Hs IH Hx]; intros n a b Ha Hb.
  - rewrite firstn_nil in Ha. destruct Ha.
  - destruct n as [| n]; [destruct Ha |]. simpl in Ha, Hb.
    destruct Ha as [<- | Ha].
    + rewrite Forall_forall in Hx. apply Hx.
      rewrite <- (firstn_skipn n l). apply in_or_app. now right.
    + now apply (IH n).
Qed.
End SortTotal.

Lemma strongly_sorted_impl {A} (R R' : A -> A -> Prop) (l : list A) :
  (forall a b, R a b -> R' a b) -> StronglySorted R l -> StronglySorted R' l.
Proof.
  intros H. induction 1 as [| x l Hs IH Hx]; constructor; [exact IH |].
  eapply Forall_impl; [| exact Hx]. intros b. apply H.
Qed.

Lemma newest_first_total (a b : SecurityEvent) :
  (Event.timestamp b <=? Event.timestamp a)%Z = false ->
  (Event.timestamp a <=? Event.timestamp b)%Z = true.
Proof. intros H. apply Z.leb_gt in H. apply Z.leb_le. lia. Qed.

Lemma newest_first_trans (a b c : SecurityEvent) :
  (Event.timestamp b <=? Event.timestamp a)%Z = true ->
  (Event.timestamp c <=? Event.timestamp b)%Z = true ->
  (Event.timestamp c <=? Event.timestamp a)%Z = true.
Proof. rewrite !Z.leb_le. lia. Qed.

(** X9.  [getSecurityEvents] returns every stored event once, newest
    first, and a context taken by default (the first 15 of them in
    session mode, the first 10 in quick-analyze mode) holds the most
    recent events: no event left out is newer than a selected one. *)
Theorem default_context_most_recent (w : World) :
  exists allEvents,
    getSecurityEvents w = (Returns allEvents, w)
    /\ Permutation allEvents (securityEvents w)
    /\ StronglySorted (fun a b => (Event.timestamp b <= Event.timestamp a)%Z)
                      allEvents
    /\ (forall ids, no_ids ids = true ->
          selectContext allEvents ids None = firstn 15 allEvents
          /\ selectContextQuick allEvents ids = firstn 10 allEvents)
    /\ (forall n e e', In e (firstn n allEvents) -> In e' (skipn n allEvents) ->
                       (Event.timestamp e' <= Event.timestamp e)%Z).
Proof.
  eexists. split; [reflexivity |].
  pose proof (@sort_le_sorted _ _ newest_first_total newest_first_trans
                              (securityEvents w)) as Hs.
  split; [apply sort_le_perm |]. split; [| split].
  - eapply strongly_sorted_impl; [| exact Hs].
    intros a b H. now apply Z.leb_le.
  - intros [[| i ids] |] H; try discriminate H; split; reflexivity.
  - intros n e e' He He'. apply Z.leb_le.
    exact (@sorted_split _ _ n _ Hs e e' He He').
Qed.

Lemma default_context_most_recent_witness :
  let w := mkWorld true (mkDb [] []) goodAnswer in
  exists allEvents,
    fst (getSecurityEvents w) = Returns allEvents
    /\ selectContextQuick allEvents None = [ev1; ev2; ev3]
    /\ (Event.timestamp ev3 <= Event.timestamp ev1)%Z.
Proof.
  cbv zeta.
  destruct (default_context_most_recent (mkWorld true (mkDb [] []) goodAnswer))
    as (allEvents & E & _ & _ & Hsel & Hnew).
  exists allEvents. rewrite E. split; [reflexivity |].
  destruct (Hsel None eq_refl) as [_ Hq]. inversion E; subst allEvents.
  split; [rewrite Hq; vm_compute; reflexivity |].
  apply (Hnew 1); vm_compute; auto.
Defined.

Lemma find_events_set (id : jsstring) (e : SecurityEvent) (l : list SecurityEvent) :
  Event.id e = id ->
  List.find (fun x => Js.str_eqb (Event.id x) id) (events_set id e l) = Some e.
Proof.
  intros He. induction l as [| x l IH]; simpl.
  - now rewrite He, str_eqb_refl.
  - destruct (Js.str_eqb (Event.id x) id) eqn:E; simpl.
    + now rewrite He, str_eqb_refl.
    + now rewrite E.
Qed.

Lemma find_events_set_other (id id' : jsstring) (e : SecurityEvent)
      (l : list SecurityEvent) :
  Event.id e = id -> id' <> id ->
  List.find (fun x => Js.str_eqb (Event.id x) id') (events_set id e l)
  = List.find (fun x => Js.str_eqb (Event.id x) id') l.
Proof.
  intros He Hne.
  assert (Hf : Js.str_eqb id id' = false).
  { destruct (Js.str_eqb id id') eqn:E; [| reflexivity].
    apply str_eqb_eq in E. congruence. }
  induction l as [| x l IH]; simpl.
  - now rewrite He, Hf.
  - destruct (Js.str_eqb (Event.id x) id) eqn:E; simpl.
    + apply str_eqb_eq in E. now rewrite He, E, Hf.
    + now rewrite IH.
Qed.

Lemma events_set_fresh (id : jsstring) (e : SecurityEvent) (l : list SecurityEvent) :
  (forall x, In x l -> Event.id x <> id) -> events_set id e l = l ++ [e].
Proof.
  induction l as [| x l IH]; simpl; intros H; [reflexivity |].
  destruct (Js.str_eqb (Event.id x) id) eqn:E.
  - apply str_eqb_eq in E. exfalso. apply (H x); auto.
  - rewrite IH; [reflexivity |]. intros y Hy. apply H. now right.
Qed.

Lemma sort_newest_last_first (e : SecurityEvent) (l : list SecurityEvent) :
  (forall x, In x l -> (Event.timestamp x < Event.timestamp e)%Z) ->
  sort_by (fun a b => (Event.timestamp b <=? Event.timestamp a)%Z) (l ++ [e])
  = e :: sort_by (fun a b => (Event.timestamp b <=? Event.timestamp a)%Z) l.
Proof.
  induction l as [| x l IH]; intros H; [reflexivity |].
  change (sort_by (fun a b => (Event.timestamp b <=? Event.timestamp a)%Z)
                  ((x :: l) ++ [e]))
    with (insert_by (fun a b => (Event.timestamp b <=? Event.timestamp a)%Z) x
            (sort_by (fun a b => (Event.timestamp b <=? Event.timestamp a)%Z)
                     (l ++ [e]))).
  rewrite IH by (intros y Hy; apply H; now right).
  simpl. specialize (H x (or_introl eq_refl)).
  destruct (Z.leb_spec (Event.timestamp e) (Event.timestamp x)); [lia |].
  reflexivity.
Qed.

(** X10.  [createSecurityEvent] files the new event under the given
    identifier, with the request's timestamp or, when it has none, the
    current time; [getSecurityEvent] then finds it under that
    identifier and finds under every other identifier what it found
    before.  With a fresh identifier the store grows by that one event,
    and when the event is newer than all stored ones it comes first in
    [getSecurityEvents], so in every default context. *)
Theorem create_event_round_trip
        (uuid : jsstring) (now : Z) (event : InsertSecurityEvent) (w : World) :
  exists e w1,
    createSecurityEvent uuid now event w = (Returns e, w1)
    /\ Event.id e = uuid
    /\ Event.timestamp e = match ie_timestamp event with
                           | Some t => t
                           | None => now
                           end
    /\ Event.description e = ie_description event
    /\ fst (getSecurityEvent uuid w1) = Returns (Some e)
    /\ (forall id, id <> uuid ->
                   fst (getSecurityEvent id w1) = fst (getSecurityEvent id w))
    /\ db w1 = db w /\ backend_calls w1 = backend_calls w
    /\ ((forall x, In x (securityEvents w) -> Event.id x <> uuid) ->
        securityEvents w1 = securityEvents w ++ [e]
        /\ ((forall x, In x (securityEvents w) ->
                       (Event.timestamp x < Event.timestamp e)%Z) ->
            exists rest,
              fst (getSecurityEvents w) = Returns rest
              /\ fst (getSecurityEvents w1) = Returns (e :: rest)
              /\ selectContext (e :: rest) None None = e :: firstn 14 rest)).
Proof.
  eexists. eexists. split; [reflexivity |]. simpl.
  repeat split.
  - now rewrite find_events_set.
  - intros id Hne. now rewrite find_events_set_other.
  - now apply events_set_fresh.
  - rewrite events_set_fresh by assumption.
    eexists. split; [reflexivity |].
    rewrite sort_newest_last_first by assumption. split; reflexivity.
Qed.

Lemma create_event_round_trip_witness :
  let w := mkWorld true (mkDb [] []) goodAnswer in
  (forall x, In x (securityEvents w) -> Event.id x <> js "e9")
  /\ exists e w1,
      createSecurityEvent (js "e9") 500 (sampleInsert None) w = (Returns e, w1)
      /\ Event.timestamp e = 500%Z
      /\ List.map Event.id (securityEvents w1) = [js "e3"; js "e1"; js "e2"; js "e9"].
Proof.
  cbv zeta.
  assert (H : forall x, In x (securityEvents (mkWorld true (mkDb [] []) goodAnswer)) ->
                        Event.id x <> js "e9").
  { intros x [<- | [<- | [<- | []]]]; discriminate. }
  split; [exact H |].
  destruct (create_event_round_trip (js "e9") 500 (sampleInsert None)
              (mkWorld true (mkDb [] []) goodAnswer))
    as (e & w1 & E & Hid & Hts & _ & _ & _ & _ & _ & Hfresh).
  exists e, w1. split; [exact E |]. split; [exact Hts |].
  destruct (Hfresh H) as [Hs _]. rewrite Hs, map_app. simpl.
  rewrite Hid. reflexivity.
Defined.

(** ** The session title *)

Lemma split_nonempty (sep : N) (s : jsstring) : Js.split sep s <> [].
Proof.
  destruct s as [| c s]; simpl; [discriminate |].
  destruct (N.eqb c sep); [discriminate |].
  destruct (Js.split sep s); discriminate.
Qed.

Lemma join_cons_cons (sep : jsstring) (c : N) (w : jsstring) (l : list jsstring) :
  Js.join sep ((c :: w) :: l) = c :: Js.join sep (w :: l).
Proof. destruct l; reflexivity. Qed.

(** The first [k] pieces of a text, joined by the separator again, are
    a prefix of the text. *)
Lemma join_firstn_split_prefix (sep : N) (s : jsstring) :
  forall k, exists rest,
    s = Js.join [sep] (firstn k (Js.split sep s)) ++ rest.
Proof.
  induction s as [| c s IH]; intros k.
  - exists []. destruct k as [| [| k]]; reflexivity.
  - destruct k as [| k]; [now exists (c :: s) |].
    simpl Js.split. destruct (N.eqb_spec c sep) as [-> | Hne].
    + destruct (IH k) as (rest & E). simpl firstn.
      destruct (firstn k (Js.split sep s)) as [| w ws] eqn:Ef.
      * exists (sep :: s). reflexivity.
      * exists rest. change (Js.join [sep] ([] :: w :: ws))
          with (sep :: Js.join [sep] (w :: ws)).
        rewrite <- app_comm_cons. f_equal. exact E.
    + destruct (IH (S k)) as (rest & E).
      destruct (Js.split sep s) as [| w ws] eqn:Es;
        [now apply split_nonempty in Es |].
      exists rest. simpl firstn in *. rewrite join_cons_cons.
      rewrite <- app_comm_cons. f_equal. exact E.
Qed.

Lemma split_length (sep : N) (s : jsstring) :
  List.length (Js.split sep s) = S (count_occ N.eq_dec s sep).
Proof.
  induction s as [| c s IH]; [reflexivity |]. simpl.
  destruct (N.eqb_spec c sep) as [-> | Hne].
  - destruct (N.eq_dec sep sep); [| congruence]. simpl. now rewrite IH.
  - destruct (N.eq_dec c sep); [congruence |].
    destruct (Js.split sep s); simpl in *; [discriminate | exact IH].
Qed.

Lemma join_split (sep : N) (s : jsstring) :
  Js.join [sep] (Js.split sep s) = s.
Proof.
  destruct (join_firstn_split_prefix sep s (List.length (Js.split sep s)))
    as (rest & E).
  rewrite firstn_all in E.
  assert (L : List.length (Js.join [sep] (Js.split sep s)) = List.length s).
  { clear E rest. induction s as [| c s IH]; [reflexivity |]. simpl Js.split.
    destruct (N.eqb c sep).
    - destruct (Js.split sep s) as [| w ws] eqn:Es;
        [now apply split_nonempty in Es |].
      change (Js.join [sep] ([] :: w :: ws)) with (sep :: Js.join [sep] (w :: ws)).
      cbn [List.length]. f_equal. exact IH.
    - destruct (Js.split sep s) as [| w ws] eqn:Es;
        [now apply split_nonempty in Es |].
      rewrite join_cons_cons. cbn [List.length]. f_equal. exact IH. }
  assert (rest = []).
  { apply (f_equal (@List.length N)) in E. rewrite length_app in E.
    destruct rest; [reflexivity | simpl in E; lia]. }
  subst rest. now rewrite app_nil_r in E.
Qed.

(** X11.  The title derived from a message is never longer than 33
    code units.  It is the text of the message up to its fifth space
    when that has at most 30 code units, and else the first 30 code
    units of the message followed by three dots; a message of at most
    30 code units with fewer than five spaces is its own title. *)
Theorem title_is_bounded_prefix (message : jsstring) :
  List.length (titleOf message) <= 33
  /\ (exists head rest,
         message = head ++ rest
         /\ head = Js.join (js " ") (firstn 5 (Js.split 32 message))
         /\ count_occ N.eq_dec head 32%N <= 4
         /\ ((List.length head <= 30 /\ titleOf message = head)
             \/ (30 < List.length head
                 /\ titleOf message = firstn 30 message ++ js "...")))
  /\ (List.length message <= 30 -> count_occ N.eq_dec message 32%N < 5 ->
      titleOf message = message).
Proof.
  destruct (join_firstn_split_prefix 32 message 5) as (rest & E).
  change [32%N] with (js " ") in E.
  set (head := Js.join (js " ") (firstn 5 (Js.split 32 message))) in *.
  assert (Ht : titleOf message
               = if Nat.ltb 30 (List.length head)
                 then firstn 30 head ++ js "..." else head).
  { unfold titleOf, Js.substring. reflexivity. }
  assert (Hc : count_occ N.eq_dec head 32%N <= 4).
  { subst head. change (js " ") with [32%N] in *.
    assert (Hk : forall (k : nat) (s : jsstring),
               count_occ N.eq_dec (Js.join [32%N] (firstn k (Js.split 32 s))) 32%N
               <= k - 1).
    { clear. intros k s. revert k.
      induction s as [| c s IH]; intros k.
      - destruct k as [| [| k]]; simpl; lia.
      - destruct k as [| k]; [simpl; lia |].
        simpl Js.split. destruct (N.eqb_spec c 32) as [-> | Hne].
        + simpl firstn. specialize (IH k).
          destruct (firstn k (Js.split 32 s)) as [| w ws] eqn:Ef; [simpl; lia |].
          change (Js.join [32%N] ([] :: w :: ws))
            with (32%N :: Js.join [32%N] (w :: ws)).
          rewrite count_occ_cons_eq by reflexivity.
          destruct k as [| k]; [discriminate Ef |]. lia.
        + specialize (IH (S k)).
          destruct (Js.split 32 s) as [| w ws] eqn:Es;
            [now apply split_nonempty in Es |].
          simpl firstn in *. rewrite join_cons_cons.
          rewrite count_occ_cons_neq by congruence.
          exact IH. }
    exact (Hk 5 message). }
  split; [| split].
  - rewrite Ht. destruct (Nat.ltb_spec 30 (List.length head)).
    + rewrite length_app, length_firstn.
      change (List.length (js "...")) with 3. lia.
    + lia.
  - exists head, rest. split; [exact E |]. split; [reflexivity |].
    split; [exact Hc |]. rewrite Ht.
    destruct (Nat.ltb_spec 30 (List.length head)) as [Hlt | Hle].
    + right. split; [exact Hlt |]. f_equal.
      clearbody head. rewrite E. rewrite firstn_app.
      replace (30 - List.length head) with 0 by lia.
      rewrite firstn_O. now rewrite app_nil_r.
    + left. now split.
  - intros Hl Hs.
    assert (Hall : head = message).
    { subst head. rewrite firstn_all2.
      - apply (join_split 32).
      - rewrite split_length. lia. }
    rewrite Ht, Hall.
    destruct (Nat.ltb_spec 30 (List.length message)); [lia | reflexivity].
Qed.

Lemma title_is_bounded_prefix_witness :
  List.length (js "Port scan from 10.0.0.9?") <= 30
  /\ count_occ N.eq_dec (js "Port scan from 10.0.0.9?") 32%N < 5
  /\ titleOf (js "Port scan from 10.0.0.9?") = js "Port scan from 10.0.0.9?".
Proof.
  assert (H1 : List.length (js "Port scan from 10.0.0.9?") <= 30)
    by (vm_compute; lia).
  assert (H2 : count_occ N.eq_dec (js "Port scan from 10.0.0.9?") 32%N < 5)
    by (vm_compute; lia).
  split; [exact H1 |]. split; [exact H2 |].
  exact (proj2 (proj2 (title_is_bounded_prefix (js "Port scan from 10.0.0.9?")))
               H1 H2).
Defined.

(** ** The sanitizer on plain text *)

Lemma canon_plain (c ch : N) :
  (c < 65 \/ 90 < c)%N -> (c < 97 \/ 122 < c)%N ->
  canon c = canon ch -> ch = c.
Proof.
  unfold canon. intros H1 H2.
  destruct ((97 <=? c)%N && (c <=? 122)%N) eqn:Ec.
  { apply andb_true_iff in Ec as [E1 E2].
    apply N.leb_le in E1. apply N.leb_le in E2. lia. }
  destruct ((97 <=? ch)%N && (ch <=? 122)%N) eqn:Eh; [| congruence].
  apply andb_true_iff in Eh as [E1 E2].
  apply N.leb_le in E1. apply N.leb_le in E2. lia.
Qed.

(** A match contains every character the pattern requires. *)
Lemma m_requires (r : regex) (c : N) (s : jsstring) :
  (c < 65 \/ 90 < c)%N -> (c < 97 \/ 122 < c)%N ->
  requires r c = true ->
  forall st st', In st' (m r s st) -> In c s.
Proof.
  intros H1 H2.
  induction r as [| c0 | neg items | | a IHa b IHb | a IHa b IHb | a IHa
                  | k a IHa | k | a IHa]; cbn [requires m]; intros Hr st st' Hin;
    try discriminate Hr.
  - apply N.eqb_eq in Hr. subst c0.
    destruct (nth_error s (pos st)) as [ch |] eqn:E; [| destruct Hin].
    destruct (N.eqb_spec (canon c) (canon ch)) as [Ec | Ec]; [| destruct Hin].
    apply canon_plain in Ec; [| assumption | assumption]. subst ch.
    eapply nth_error_In. exact E.
  - apply in_flat_map in Hin as (st1 & Ha & Hb).
    apply orb_true_iff in Hr as [Hr | Hr]; [eapply IHa | eapply IHb]; eauto.
  - apply andb_true_iff in Hr as [Hra Hrb].
    apply in_app_or in Hin as [Hin | Hin]; [eapply IHa | eapply IHb]; eauto.
  - apply in_map_iff in Hin as (st1 & _ & Hin). eapply IHa; eauto.
Qed.

Lemma requires_no_match (r : regex) (c : N) (s : jsstring) :
  (c < 65 \/ 90 < c)%N -> (c < 97 \/ 122 < c)%N ->
  requires r c = true -> ~ In c s -> has_match r s = false.
Proof.
  intros H1 H2 Hr Hn. apply has_match_false. intros j Hj.
  unfold exec_at. destruct (m r s (init j)) as [| st l] eqn:E; [reflexivity |].
  exfalso. apply Hn. apply (@m_requires r c s H1 H2 Hr (init j) st).
  rewrite E. now left.
Qed.

(** X12.  An answer that holds none of the characters [<], [:] and [=]
    is returned as it is, cut to [maxLength]: every blocked pattern
    needs one of the three. *)
Theorem sanitize_plain_text (response : jsstring) (maxLength : Z) :
  response <> [] ->
  ~ In 60%N response -> ~ In 58%N response -> ~ In 61%N response ->
  sanitizeAiResponse (Some response) maxLength = Js.slice0 response maxLength.
Proof.
  intros Hne Hlt Hcolon Heq.
  destruct response as [| c s]; [congruence |].
  apply sanitize_of_free. apply pattern_free_spec.
  destruct (slice0_firstn (c :: s) maxLength) as [k ->].
  assert (Hsub : forall x, In x (firstn k (c :: s)) -> In x (c :: s)).
  { intros x Hx. rewrite <- (firstn_skipn k (c :: s)). apply in_or_app. now left. }
  intros r Hr. unfold blocked in Hr. simpl in Hr.
  destruct Hr as [<- | [<- | [<- | [<- | [<- | [<- | []]]]]]].
  - apply (@requires_no_match _ 60%N); [lia | lia | reflexivity | auto].
  - apply (@requires_no_match _ 60%N); [lia | lia | reflexivity | auto].
  - apply (@requires_no_match _ 58%N); [lia | lia | reflexivity | auto].
  - apply (@requires_no_match _ 58%N); [lia | lia | reflexivity | auto].
  - apply (@requires_no_match _ 61%N); [lia | lia | reflexivity | auto].
  - apply (@requires_no_match _ 61%N); [lia | lia | reflexivity | auto].
Qed.

Lemma sanitize_plain_text_witness :
  sanitize (Some (js "Two failed logins, then a success."))
  = js "Two failed logins, then a success.".
Proof.
  unfold sanitize. rewrite sanitize_plain_text.
  - reflexivity.
  - discriminate.
  - vm_compute. intuition discriminate.
  - vm_compute. intuition discriminate.
  - vm_compute. intuition discriminate.
Defined.

(** ** Analysis sessions *)

Lemma db_call_result {A} (op : Db -> A * Db) (w : World) :
  let d0 := {| chat_rows := chat_rows (db w); session_rows := session_rows (db w);
               db_now := db_now (db w); db_next_id := db_next_id (db w);
               db_faults := tl (db_faults (db w)) |} in
  db_call op w
  = if next_fails w
    then (Throws {| err_message := Some (js "database error") |}, set_db w d0)
    else (Returns (fst (op d0)), set_db w (snd (op d0))).
Proof.
  unfold db_call, next_fails.
  destruct w as [u k o evs [rows sess now nid faults] bk calls clk]; simpl.
  destruct faults as [| [|] fs]; simpl; try reflexivity;
    destruct (op _); reflexivity.
Qed.

Lemma updated_desc_total (a b : AiAnalysisSession) :
  (Session.updatedAt b <=? Session.updatedAt a)%Z = false ->
  (Session.updatedAt a <=? Session.updatedAt b)%Z = true.
Proof. intros H. apply Z.leb_gt in H. apply Z.leb_le. lia. Qed.

Lemma updated_desc_trans (a b c : AiAnalysisSession) :
  (Session.updatedAt b <=? Session.updatedAt a)%Z = true ->
  (Session.updatedAt c <=? Session.updatedAt b)%Z = true ->
  (Session.updatedAt c <=? Session.updatedAt a)%Z = true.
Proof. rewrite !Z.leb_le. lia. Qed.

Lemma column_is_eq (v : option jsstring) (x : jsstring) :
  column_is v x = true <-> v = Some x.
Proof.
  unfold column_is. destruct v as [y |]; [| split; discriminate].
  rewrite str_eqb_eq. split; congruence.
Qed.

(** X13.  Listing the sessions always answers 200 and never throws: a
    failed read gives the empty list.  Otherwise the list is ordered by
    last update, latest first; for a signed-in user it holds exactly
    that user's sessions, and without a user identifier (absent or
    empty) it holds the sessions of everybody. *)
Theorem sessions_index_answers (userId : option jsstring) (w : World) :
  exists l,
    fst (sessions_index userId w)
    = Returns {| st_status := 200; st_payload := SessionsJson l |}
    /\ session_rows (db (snd (sessions_index userId w))) = session_rows (db w)
    /\ chat_rows (db (snd (sessions_index userId w))) = chat_rows (db w)
    /\ StronglySorted (fun a b => (Session.updatedAt b <= Session.updatedAt a)%Z) l
    /\ (next_fails w = true -> l = [])
    /\ (next_fails w = false ->
        match userId with
        | Some (c :: u) =>
            forall s, In s l <-> In s (session_rows (db w))
                                 /\ Session.userId s = Some (c :: u)
        | _ => Permutation l (session_rows (db w))
        end).
Proof.
  unfold sessions_index, try_catch, bind, getAiAnalysisSessions, try_catch.
  rewrite db_call_result. cbv zeta.
  destruct (next_fails w); simpl.
  - eexists. split; [reflexivity |]. repeat split; try discriminate.
    constructor.
  - eexists. split; [reflexivity |]. split; [reflexivity |].
    split; [reflexivity |]. split; [| split; [discriminate |]].
    + eapply strongly_sorted_impl;
        [| apply (@sort_le_sorted _ _ updated_desc_total updated_desc_trans)].
      intros a b H. now apply Z.leb_le.
    + intros _. destruct userId as [[| c u] |]; try apply sort_le_perm.
      intros s. split.
      * intros H. apply (Permutation_in _ (sort_le_perm _ _)) in H.
        apply filter_In in H as [H1 H2]. split; [exact H1 |].
        now apply column_is_eq.
      * intros [H1 H2].
        apply (Permutation_in _ (Permutation_sym (sort_le_perm _ _))).
        apply filter_In. split; [exact H1 |]. now apply column_is_eq.
Qed.

Lemma sessions_index_answers_witness :
  let w := withSessions [aliceSession] [] in
  next_fails w = false
  /\ (exists l, fst (sessions_index None w)
                = Returns {| st_status := 200; st_payload := SessionsJson l |}
                /\ In aliceSession l).
Proof.
  cbv zeta. split; [reflexivity |].
  destruct (sessions_index_answers None (withSessions [aliceSession] []))
    as (l & E & _ & _ & _ & _ & H).
  exists l. split; [exact E |].
  apply (Permutation_in _ (Permutation_sym (H eq_refl))). now left.
Defined.

(** X14.  Showing a session answers 200 with the stored session of
    that identifier, and 404 both when there is none and when the read
    fails; it never answers 500 and changes no row. *)
Theorem sessions_show_answers (id : jsstring) (w : World) :
  exists r,
    fst (sessions_show id w) = Returns r
    /\ session_rows (db (snd (sessions_show id w))) = session_rows (db w)
    /\ (st_status r = 200 \/ st_status r = 404)
    /\ (next_fails w = true ->
        r = {| st_status := 404; st_payload := FailJson (js "Session not found") |})
    /\ (next_fails w = false ->
        (forall s, In s (session_rows (db w)) -> Session.id s <> id) ->
        r = {| st_status := 404; st_payload := FailJson (js "Session not found") |})
    /\ (next_fails w = false ->
        forall s, List.find (fun x => Js.str_eqb (Session.id x) id)
                            (session_rows (db w)) = Some s ->
                  r = {| st_status := 200; st_payload := SessionJson s |}
                  /\ Session.id s = id /\ In s (session_rows (db w))).
Proof.
  unfold sessions_show, try_catch, bind, getAiAnalysisSession, try_catch.
  rewrite db_call_result. cbv zeta.
  destruct (next_fails w); simpl.
  - eexists. split; [reflexivity |]. repeat split; auto; discriminate.
  - match goal with
    | |- context [List.find ?f ?l] => destruct (List.find f l) as [s |] eqn:Ef
    end; simpl.
    + eexists. split; [reflexivity |]. split; [reflexivity |].
      split; [auto |]. split; [discriminate |].
      apply find_some in Ef as [Hin Hid]. apply str_eqb_eq in Hid.
      split.
      * intros _ H. exfalso. now apply (H s).
      * intros _ s' E. inversion E; subst s'. auto.
    + eexists. split; [reflexivity |]. split; [reflexivity |].
      split; [auto |]. split; [discriminate |]. split; [auto |].
      intros _ s' E. discriminate E.
Qed.

Lemma sessions_show_answers_witness :
  let w := withSessions [aliceSession] [] in
  next_fails w = false
  /\ fst (sessions_show (js "s2") w)
     = Returns {| st_status := 200; st_payload := SessionJson aliceSession |}
  /\ (exists r, fst (sessions_show (js "s2") (withSessions [aliceSession] [true]))
                = Returns r /\ st_status r = 404).
Proof.
  cbv zeta. split; [reflexivity |].
  destruct (sessions_show_answers (js "s2") (withSessions [aliceSession] []))
    as (r & E & _ & _ & _ & _ & H).
  destruct (H eq_refl aliceSession eq_refl) as (-> & _).
  split; [exact E |].
  destruct (sessions_show_answers (js "s2") (withSessions [aliceSession] [true]))
    as (r' & E' & _ & _ & H' & _).
  exists r'. split; [exact E' |]. rewrite (H' eq_refl). reflexivity.
Defined.





(** X16.  When the insert fails, or the identifier is already taken,
    creating a session answers 500 "Failed to create AI session" and
    stores nothing. *)
Theorem session_create_refused
        (uuid : jsstring) (userId title : option jsstring) (w : World) :
  next_fails w = true
  \/ (exists s, In s (session_rows (db w)) /\ Session.id s = uuid) ->
  fst (sessions_create uuid userId title w)
  = Returns {| st_status := 500;
               st_payload := FailJson (js "Failed to create AI session") |}
  /\ session_rows (db (snd (sessions_create uuid userId title w)))
     = session_rows (db w)
  /\ chat_rows (db (snd (sessions_create uuid userId title w))) = chat_rows (db w).
Proof.
  intros H.
  unfold sessions_create, try_catch, bind, createAiAnalysisSession,
    db_call_checked.
  rewrite db_call_result. cbv zeta.
  destruct (next_fails w) eqn:Ef; simpl; [auto |].
  destruct H as [H | (s & Hs & Hid)]; [discriminate |].
  unfold insert_session. simpl.
  assert (E : existsb (fun r => Js.str_eqb (Session.id r) uuid)
                      (session_rows (db w)) = true).
  { apply existsb_exists. exists s. split; [exact Hs | now apply str_eqb_eq]. }
  rewrite E. simpl. auto.
Qed.

Lemma session_create_refused_witness :
  let w := withSessions [aliceSession] [] in
  (exists s, In s (session_rows (db w)) /\ Session.id s = js "s2")
  /\ session_rows (db (snd (sessions_create (js "s2") None None w)))
     = [aliceSession].
Proof.
  cbv zeta.
  assert (H : exists s, In s (session_rows (db (withSessions [aliceSession] [])))
                        /\ Session.id s = js "s2").
  { exists aliceSession. split; [now left | reflexivity]. }
  split; [exact H |].
  exact (proj1 (proj2 (@session_create_refused (js "s2") None None
                         (withSessions [aliceSession] []) (or_intror H)))).
Defined.

(** Text as the database gives it back. *)
Lemma list_ind_pairs {A} (P : list A -> Prop) :
  P [] -> (forall a, P [a]) ->
  (forall a b l, P l -> P (b :: l) -> P (a :: b :: l)) ->
  forall l, P l.
Proof.
  intros H0 H1 H2 l.
  enough (H : P l /\ forall a, P (a :: l)) by apply H.
  induction l as [| b l [IH1 IH2]]; [split; [exact H0 | exact H1] |].
  split; [apply IH2 |]. intros a. apply H2; [exact IH1 | apply IH2].
Qed.

Lemma utf8_round_trip_cons2 (a b : N) (l : jsstring) :
  utf8_round_trip (a :: b :: l)
  = if is_high_surrogate a
    then if is_low_surrogate b then a :: b :: utf8_round_trip l
         else 65533%N :: utf8_round_trip (b :: l)
    else if is_low_surrogate a then 65533%N :: utf8_round_trip (b :: l)
         else a :: utf8_round_trip (b :: l).
Proof. reflexivity. Qed.

Lemma well_formed_cons2 (a b : N) (l : jsstring) :
  well_formed (a :: b :: l)
  = if is_high_surrogate a then is_low_surrogate b && well_formed l
    else negb (is_low_surrogate a) && well_formed (b :: l).
Proof. reflexivity. Qed.

Lemma well_formed_cons (c : N) (l : jsstring) :
  is_high_surrogate c = false -> is_low_surrogate c = false ->
  well_formed (c :: l) = well_formed l.
Proof. intros H L. simpl. now rewrite H, L. Qed.

Lemma round_trip_fixed (s : jsstring) :
  well_formed s = true -> utf8_round_trip s = s.
Proof.
  induction s as [| a | a b l IH1 IH2] using list_ind_pairs.
  - reflexivity.
  - simpl. destruct (is_high_surrogate a); [discriminate |].
    destruct (is_low_surrogate a); [discriminate | reflexivity].
  - rewrite utf8_round_trip_cons2, well_formed_cons2.
    destruct (is_high_surrogate a).
    + destruct (is_low_surrogate b); [| discriminate].
      simpl. intros H. now rewrite IH1.
    + destruct (is_low_surrogate a); [discriminate |].
      simpl negb. rewrite andb_true_l. intros H. now rewrite IH2.
Qed.

Lemma round_trip_well_formed (s : jsstring) :
  well_formed (utf8_round_trip s) = true.
Proof.
  induction s as [| a | a b l IH1 IH2] using list_ind_pairs.
  - reflexivity.
  - simpl. destruct (is_high_surrogate a) eqn:H; [reflexivity |].
    destruct (is_low_surrogate a) eqn:L; [reflexivity |].
    simpl. now rewrite H, L.
  - rewrite utf8_round_trip_cons2.
    destruct (is_high_surrogate a) eqn:H.
    + destruct (is_low_surrogate b) eqn:L.
      * rewrite well_formed_cons2, H, L. exact IH1.
      * rewrite well_formed_cons by reflexivity. exact IH2.
    + destruct (is_low_surrogate a) eqn:L.
      * rewrite well_formed_cons by reflexivity. exact IH2.
      * rewrite well_formed_cons by assumption. exact IH2.
Qed.

Lemma round_trip_length (s : jsstring) :
  List.length (utf8_round_trip s) = List.length s.
Proof.
  induction s as [| a | a b l IH1 IH2] using list_ind_pairs.
  - reflexivity.
  - simpl. destruct (is_high_surrogate a); [reflexivity |].
    now destruct (is_low_surrogate a).
  - rewrite utf8_round_trip_cons2.
    destruct (is_high_surrogate a);
      [destruct (is_low_surrogate b) | destruct (is_low_surrogate a)];
      cbn [List.length]; rewrite ?IH1, ?IH2; reflexivity.
Qed.

Lemma pg_text_spec (s : jsstring) :
  (In 0%N s -> pg_text s = None)
  /\ (~ In 0%N s -> pg_text s = Some (utf8_round_trip s)).
Proof.
  unfold pg_text. destruct (existsb (N.eqb 0) s) eqn:E.
  - split; [reflexivity |]. intros H. exfalso. apply H.
    apply existsb_exists in E as (x & Hx & E). apply N.eqb_eq in E. now subst x.
  - split; [| reflexivity]. intros H.
    assert (existsb (N.eqb 0) s = true).
    { apply existsb_exists. exists 0%N. split; [exact H | reflexivity]. }
    congruence.
Qed.

(** X17.  [updateAiAnalysisSession], called with a new title, never
    throws.  It keeps the stored sessions' identifiers and order and
    every session filed under another identifier, and touches no
    message.  When the update fails, when the database refuses the
    identifier or the title (a text with the code unit 0), and when no
    session has the identifier, nothing changes and the result is
    undefined.  Otherwise the session gets the title as the database
    stores it, and the server's time of the update, keeps its other
    fields, and is returned.  The stored title is the given one when
    that is well formed; a surrogate that is not half of a pair, as the
    cut of the title at 30 code units can leave one, is stored and
    returned as U+FFFD. *)
Theorem update_session_title (id title : jsstring) (w : World) :
  exists r w1,
    updateAiAnalysisSession id title w = (Returns r, w1)
    /\ chat_rows (db w1) = chat_rows (db w)
    /\ List.map Session.id (session_rows (db w1))
       = List.map Session.id (session_rows (db w))
    /\ (forall s, In s (session_rows (db w)) ->
                  Session.id s <> utf8_round_trip id ->
                  In s (session_rows (db w1)))
    /\ (next_fails w = true \/ In 0%N id \/ In 0%N title ->
        r = None /\ session_rows (db w1) = session_rows (db w))
    /\ (next_fails w = false -> ~ In 0%N id -> ~ In 0%N title ->
        let id' := utf8_round_trip id in
        let title' := utf8_round_trip title in
        (well_formed id = true -> id' = id)
        /\ (well_formed title = true -> title' = title)
        /\ well_formed title' = true
        /\ List.length title' = List.length title
        /\ ((forall s, In s (session_rows (db w)) -> Session.id s <> id') ->
            r = None /\ session_rows (db w1) = session_rows (db w))
        /\ (forall s, List.find (fun x => Js.str_eqb (Session.id x) id')
                                (session_rows (db w)) = Some s ->
                      r = Some {| Session.id := Session.id s;
                                  Session.userId := Session.userId s;
                                  Session.title := title';
                                  Session.status := Session.status s;
                                  Session.createdAt := Session.createdAt s;
                                  Session.updatedAt := clock w |}
                      /\ forall s', r = Some s' -> In s' (session_rows (db w1)))).
Proof.
  unfold updateAiAnalysisSession, try_catch, db_call_checked.
  rewrite db_call_result. cbv zeta.
  destruct (pg_text_spec id) as [Hid0 Hid1].
  destruct (pg_text_spec title) as [Ht0 Ht1].
  destruct (next_fails w); simpl.
  { eexists. eexists. split; [reflexivity |]. simpl.
    repeat split; auto; discriminate. }
  unfold update_title.
  destruct (pg_text title) as [title' |] eqn:Et.
  2:{ eexists. eexists. split; [reflexivity |]. simpl.
      split; [reflexivity |]. split; [reflexivity |]. split; [auto |].
      split; [auto |]. intros _ _ Hn. specialize (Ht1 Hn). discriminate Ht1. }
  destruct (pg_text id) as [id' |] eqn:Ei.
  2:{ eexists. eexists. split; [reflexivity |]. simpl.
      split; [reflexivity |]. split; [reflexivity |]. split; [auto |].
      split; [auto |]. intros _ Hn _. specialize (Hid1 Hn). discriminate Hid1. }
  assert (Hn0i : ~ In 0%N id).
  { intros H. specialize (Hid0 H). discriminate Hid0. }
  assert (Hn0t : ~ In 0%N title).
  { intros H. specialize (Ht0 H). discriminate Ht0. }
  specialize (Hid1 Hn0i). specialize (Ht1 Hn0t).
  injection Hid1 as Hid1. injection Ht1 as Ht1. subst id' title'.
  simpl.
  set (upd := fun r : AiAnalysisSession =>
                if Js.str_eqb (Session.id r) (utf8_round_trip id)
                then {| Session.id := Session.id r;
                        Session.userId := Session.userId r;
                        Session.title := utf8_round_trip title;
                        Session.status := Session.status r;
                        Session.createdAt := Session.createdAt r;
                        Session.updatedAt := clock w |}
                else r).
  assert (Hid : forall r, Session.id (upd r) = Session.id r).
  { intros r. unfold upd.
    now destruct (Js.str_eqb (Session.id r) (utf8_round_trip id)). }
  assert (Hother : forall r, Session.id r <> utf8_round_trip id -> upd r = r).
  { intros r Hr. unfold upd.
    destruct (Js.str_eqb (Session.id r) (utf8_round_trip id)) eqn:E;
      [| reflexivity]. apply str_eqb_eq in E. congruence. }
  eexists. eexists. split; [reflexivity |]. simpl.
  split; [reflexivity |]. split; [| split; [| split]].
  - rewrite map_map. apply map_ext. exact Hid.
  - intros s Hs Hne. rewrite <- (Hother s Hne). now apply in_map.
  - intros [H | [H | H]]; [discriminate | |]; contradiction.
  - intros _ _ _.
    split; [apply round_trip_fixed |]. split; [apply round_trip_fixed |].
    split; [apply round_trip_well_formed |].
    split; [apply round_trip_length |].
    split.
    + intros Hnone.
      assert (E : List.map upd (session_rows (db w)) = session_rows (db w)).
      { rewrite <- (map_id (session_rows (db w))) at 2.
        apply map_ext_in. intros r Hr. apply Hother. now apply Hnone. }
      rewrite E. split; [| reflexivity].
      destruct (List.find (fun x => Js.str_eqb (Session.id x) (utf8_round_trip id))
                          (session_rows (db w))) as [s |] eqn:Ef;
        [| reflexivity].
      apply find_some in Ef as [Hin Hs]. apply str_eqb_eq in Hs.
      exfalso. now apply (Hnone s).
    + intros s Ef.
      assert (Efm : List.find (fun x => Js.str_eqb (Session.id x)
                                                  (utf8_round_trip id))
                              (List.map upd (session_rows (db w)))
                    = Some (upd s)).
      { clear -Ef Hid. induction (session_rows (db w)) as [| x l IH];
          [discriminate |]. simpl in *. rewrite Hid.
        destruct (Js.str_eqb (Session.id x) (utf8_round_trip id)).
        - now inversion Ef.
        - now apply IH. }
      rewrite Efm. apply find_some in Ef as [Hin Hs].
      split.
      * unfold upd. now rewrite Hs.
      * intros s' E. inversion E; subst s'. now apply in_map.
Qed.

Lemma update_session_title_witness :
  let w := withSessions [aliceSession] [] in
  let message :=
    js "Unusual-outbound-connections-" ++ [55357%N; 56832%N] ++ js " seen" in
  let title := titleOf message in
  next_fails w = false /\ ~ In 0%N (js "s2") /\ ~ In 0%N title
  /\ well_formed message = true /\ well_formed title = false
  /\ exists s w1,
      updateAiAnalysisSession (js "s2") title w = (Returns (Some s), w1)
      /\ Session.title s
         = js "Unusual-outbound-connections-" ++ [65533%N] ++ js "..."
      /\ Session.updatedAt s = 2000%Z.
Proof.
  cbv zeta.
  set (title := titleOf (js "Unusual-outbound-connections-"
                           ++ [55357%N; 56832%N] ++ js " seen")).
  assert (Hi : ~ In 0%N (js "s2")) by (vm_compute; intuition discriminate).
  assert (Ht : ~ In 0%N title) by (vm_compute; intuition discriminate).
  split; [reflexivity |]. split; [exact Hi |]. split; [exact Ht |].
  split; [vm_compute; reflexivity |]. split; [vm_compute; reflexivity |].
  destruct (update_session_title (js "s2") title
              (withSessions [aliceSession] []))
    as (r & w1 & E & _ & _ & _ & _ & H).
  destruct (H eq_refl Hi Ht) as (_ & _ & _ & _ & _ & H').
  destruct (H' aliceSession eq_refl) as [-> _].
  eexists. exists w1. split; [exact E |]. split; vm_compute; reflexivity.
Defined.

(** ** The in-memory store *)

Module MemFacts.
Import Mem.

Lemma get_spread (k : string) (base extra : Obj) :
  get k (spread base extra)
  = match get k extra with
    | Some v => Some v
    | None => get k base
    end.
Proof.
  unfold spread. induction extra as [| [k' v] extra IH]; simpl; [reflexivity |].
  destruct (String.eqb k' k); [reflexivity | exact IH].
Qed.

Lemma get_set (k k' : string) (v : Val) (o : Obj) :
  get k (set k' v o) = if String.eqb k' k then Some v else get k o.
Proof. reflexivity. Qed.

Lemma m_get_set_same (k : jsstring) (o : Obj) (m : Store) :
  m_get k (m_set k o m) = Some o.
Proof.
  induction m as [| [k' o'] m IH]; simpl.
  - now rewrite str_eqb_refl.
  - destruct (Js.str_eqb k' k) eqn:E; simpl.
    + now rewrite str_eqb_refl.
    + now rewrite E.
Qed.

Lemma m_get_set_other (k k0 : jsstring) (o : Obj) (m : Store) :
  k0 <> k -> m_get k0 (m_set k o m) = m_get k0 m.
Proof.
  intros Hne.
  assert (Hf : Js.str_eqb k k0 = false).
  { destruct (Js.str_eqb k k0) eqn:E; [| reflexivity].
    apply str_eqb_eq in E. congruence. }
  induction m as [| [k' o'] m IH]; simpl.
  - now rewrite Hf.
  - destruct (Js.str_eqb k' k) eqn:E; simpl.
    + apply str_eqb_eq in E. subst k'. now rewrite Hf.
    + now rewrite IH.
Qed.

Lemma m_get_In (k : jsstring) (o : Obj) (m : Store) :
  m_get k m = Some o -> In (k, o) m.
Proof.
  induction m as [| [k' o'] m IH]; simpl; [discriminate |].
  destruct (Js.str_eqb k' k) eqn:E.
  - apply str_eqb_eq in E. intros H. inversion H; subst. now left.
  - intros H. right. now apply IH.
Qed.

Lemma m_get_None (k : jsstring) (m : Store) :
  m_get k m = None <-> ~ In k (List.map fst m).
Proof.
  induction m as [| [k' o'] m IH]; simpl; [tauto |].
  destruct (Js.str_eqb k' k) eqn:E.
  - apply str_eqb_eq in E. split; [discriminate | intros H; exfalso; auto].
  - rewrite IH. split; [| tauto]. intros H [H1 | H1]; [| tauto].
    subst k'. rewrite str_eqb_refl in E. discriminate.
Qed.

(** Replacing an entry keeps the keys and their order. *)
Lemma m_set_keys_present (k : jsstring) (o o0 : Obj) (m : Store) :
  m_get k m = Some o0 -> List.map fst (m_set k o m) = List.map fst m.
Proof.
  induction m as [| [k' o'] m IH]; simpl; [discriminate |].
  destruct (Js.str_eqb k' k) eqn:E; simpl.
  - apply str_eqb_eq in E. now subst.
  - intros H. now rewrite IH.
Qed.

Lemma m_set_fresh (k : jsstring) (o : Obj) (m : Store) :
  m_get k m = None -> m_set k o m = m ++ [(k, o)].
Proof.
  induction m as [| [k' o'] m IH]; simpl; [reflexivity |].
  destruct (Js.str_eqb k' k); [discriminate |]. intros H. now rewrite IH.
Qed.

(** X18.  [updateAlert] never adds or removes an alert: the keys and
    their order stay, and so does every alert under another key.  For
    an unknown identifier it returns undefined and changes nothing.
    Otherwise the stored alert takes every property the update gives
    and keeps its others, [updatedAt] is the time of the update whatever
    the update says, and the alert returned is the one filed. *)
Theorem update_alert_merges
        (id : jsstring) (updates : Obj) (now : Z) (alerts : Store) :
  let r := fst (updateAlert id updates now alerts) in
  let alerts' := snd (updateAlert id updates now alerts) in
  List.map fst alerts' = List.map fst alerts
  /\ (forall k, k <> id -> getAlert k alerts' = getAlert k alerts)
  /\ match getAlert id alerts with
     | None => r = None /\ alerts' = alerts
     | Some old =>
         exists u, r = Some u /\ getAlert id alerts' = Some u
                   /\ get "updatedAt" u = Some (VDate now)
                   /\ forall k, k <> "updatedAt"%string ->
                                get k u = match get k updates with
                                          | Some v => Some v
                                          | None => get k old
                                          end
     end.
Proof.
  cbv zeta. unfold updateAlert, getAlert.
  destruct (m_get id alerts) as [old |] eqn:E; simpl.
  - split; [now apply (@m_set_keys_present id _ old alerts E) |].
    split; [intros k Hk; now apply m_get_set_other |].
    eexists. split; [reflexivity |]. split; [apply m_get_set_same |].
    split; [reflexivity |]. intros k Hk. rewrite get_set.
    destruct (String.eqb_spec "updatedAt" k) as [<- | _]; [congruence |].
    apply get_spread.
  - repeat split.
Qed.

Lemma update_alert_merges_witness :
  exists u,
    fst (updateAlert (js "r1") [("status"%string, VStr (js "Closed"))] 1000
                     sampleAnswers) = Some u
    /\ get "status" u = Some (VStr (js "Closed"))
    /\ get "questionId" u = Some (VStr (js "q1")).
Proof.
  pose proof (update_alert_merges (js "r1")
                [("status"%string, VStr (js "Closed"))] 1000 sampleAnswers) as H.
  cbv zeta in H. destruct H as (_ & _ & H).
  change (getAlert (js "r1") sampleAnswers)
    with (Some (sampleAnswer "r1" "q1" "Compliant")) in H.
  cbv iota beta in H. destruct H as (u & E & _ & _ & Hk).
  exists u. split; [exact E |].
  split; rewrite Hk by discriminate; reflexivity.
Defined.

(** X19.  [createAlert] files the new alert under the given identifier,
    where [getAlert] finds it, and leaves every other key as it was;
    with an unused identifier the alert is added at the end.  Both
    timestamps are the time of creation whatever the data holds, the
    other properties are those of the data, and for data without an
    [id] the alert carries the identifier it is filed under. *)
Theorem create_alert_round_trip
        (uuid : jsstring) (now : Z) (alert : Obj) (alerts : Store) :
  let a := fst (createAlert uuid now alert alerts) in
  let alerts' := snd (createAlert uuid now alert alerts) in
  getAlert uuid alerts' = Some a
  /\ (forall k, k <> uuid -> getAlert k alerts' = getAlert k alerts)
  /\ (getAlert uuid alerts = None -> alerts' = alerts ++ [(uuid, a)])
  /\ get "createdAt" a = Some (VDate now) /\ get "updatedAt" a = Some (VDate now)
  /\ (get "id" alert = None -> get "id" a = Some (VStr uuid))
  /\ (forall k v, k <> "createdAt"%string -> k <> "updatedAt"%string ->
                  get k alert = Some v -> get k a = Some v).
Proof.
  cbv zeta. unfold createAlert, getAlert. simpl fst. simpl snd.
  split; [apply m_get_set_same |].
  split; [intros k Hk; now apply m_get_set_other |].
  split; [apply m_set_fresh |].
  split; [reflexivity |]. split; [reflexivity |]. split.
  - intros H. rewrite !get_set. simpl. rewrite get_spread, H. reflexivity.
  - intros k v H1 H2 H. rewrite !get_set.
    destruct (String.eqb_spec "updatedAt" k) as [<- | _]; [congruence |].
    destruct (String.eqb_spec "createdAt" k) as [<- | _]; [congruence |].
    now rewrite get_spread, H.
Qed.

Lemma create_alert_round_trip_witness :
  getAlert (js "a9") sampleAnswers = None
  /\ List.map fst (snd (createAlert (js "a9") 1000
                          [("title"%string, VStr (js "Port scan"))] sampleAnswers))
     = [js "r1"; js "r2"; js "a9"].
Proof.
  split; [reflexivity |].
  destruct (create_alert_round_trip (js "a9") 1000
              [("title"%string, VStr (js "Port scan"))] sampleAnswers)
    as (_ & _ & H & _).
  rewrite (H eq_refl). reflexivity.
Defined.

Lemma strict_eq_str (a : option Val) (q : jsstring) :
  strict_eq a (Some (VStr q)) = true <-> a = Some (VStr q).
Proof.
  split.
  - destruct a as [[| b | n | s | ms | j] |]; simpl; try discriminate.
    intros H. apply str_eqb_eq in H. now subst.
  - intros ->. simpl. apply str_eqb_refl.
Qed.

Lemma In_m_get (k : jsstring) (o : Obj) (m : Store) :
  NoDup (List.map fst m) -> In (k, o) m -> m_get k m = Some o.
Proof.
  induction m as [| [k' o'] m IH]; simpl; intros ND Hin; [destruct Hin |].
  inversion ND as [| ? ? Hk ND']; subst.
  destruct Hin as [E | Hin].
  - inversion E; subst. now rewrite str_eqb_refl.
  - destruct (Js.str_eqb k' k) eqn:E.
    + apply str_eqb_eq in E. subst k'. exfalso. apply Hk.
      apply in_map_iff. now exists (k, o).
    + now apply IH.
Qed.

Lemma In_m_set (k k' : jsstring) (u o : Obj) (m : Store) :
  In (k', o) (m_set k u m) -> (k' = k /\ o = u) \/ In (k', o) m.
Proof.
  induction m as [| [k0 o0] m IH]; simpl.
  - intros [E | []]. inversion E. auto.
  - destruct (Js.str_eqb k0 k); simpl.
    + intros [E | H]; [inversion E; auto | auto].
    + intros [E | H]; [auto |]. destruct (IH H); auto.
Qed.

(** Replacing an entry by one that reads the same keeps what is read. *)
Lemma m_set_same_reading {B} (f : Obj -> B) (k : jsstring) (u old : Obj)
      (m : Store) :
  m_get k m = Some old -> f u = f old ->
  List.map f (values (m_set k u m)) = List.map f (values m).
Proof.
  unfold values. induction m as [| [k' o'] m IH]; simpl; [discriminate |].
  destruct (Js.str_eqb k' k) eqn:E; simpl.
  - intros H Hf. inversion H; subst. now rewrite Hf.
  - intros H Hf. now rewrite IH.
Qed.

Lemma pairs_map {A B} (f : A -> B) (P : B -> B -> Prop) (l : list A) :
  ForallOrdPairs (fun a b => P (f a) (f b)) l <-> ForallOrdPairs P (List.map f l).
Proof.
  induction l as [| x l IH]; simpl.
  - split; constructor.
  - split; intros H; inversion H as [| ? ? Hx Hl]; subst; constructor.
    + rewrite Forall_map. exact Hx.
    + now apply IH.
    + rewrite Forall_map in Hx. exact Hx.
    + now apply IH.
Qed.

Lemma pairs_snoc {A} (R : A -> A -> Prop) (l : list A) (x : A) :
  ForallOrdPairs R l -> Forall (fun a => R a x) l -> ForallOrdPairs R (l ++ [x]).
Proof.
  induction 1 as [| y l Hy Hl IH]; simpl; intros H.
  - repeat constructor.
  - inversion H as [| ? ? H1 H2]; subst. constructor; [| now apply IH].
    apply Forall_app. split; [exact Hy | now constructor].
Qed.

(** Among responses no two of which answer the same question, the one
    that answers [q] is the only one. *)
Lemma only_answer (q : jsstring) (a : Obj) (l : list Obj) :
  ForallOrdPairs
    (fun x y => strict_eq (get "questionId" x) (get "questionId" y) = false) l ->
  In a l -> get "questionId" a = Some (VStr q) ->
  filter (fun r => strict_eq (get "questionId" r) (Some (VStr q))) l = [a].
Proof.
  induction 1 as [| x l Hx Hl IH]; intros Hin Hq; [destruct Hin |].
  simpl. destruct Hin as [-> | Hin].
  - rewrite Hq. simpl. rewrite str_eqb_refl. f_equal.
    clear IH Hl. induction l as [| y l IHl]; [reflexivity |].
    inversion Hx as [| ? ? Hy Hx']; subst. simpl.
    destruct (strict_eq (get "questionId" y) (Some (VStr q))) eqn:E.
    + apply strict_eq_str in E. rewrite Hq, E in Hy. simpl in Hy.
      rewrite str_eqb_refl in Hy. discriminate.
    + now apply IHl.
  - destruct (strict_eq (get "questionId" x) (Some (VStr q))) eqn:E.
    + apply strict_eq_str in E. rewrite Forall_forall in Hx.
      specialize (Hx a Hin). rewrite E, Hq in Hx. simpl in Hx.
      rewrite str_eqb_refl in Hx. discriminate.
    + now apply IH.
Qed.

(** X20.  [upsertComplianceResponse] keeps one response per question.
    On a store where every response is filed under its own identifier
    and no two answer the same question, an upsert of validated data (a
    question identifier, no [id]) leaves such a store, in which the
    response returned is the only one for its question.  It carries the
    data's properties and the time of the upsert.  When the question
    was answered before, that response is updated where it stands and
    keeps its identifier; otherwise a new one is added at the end under
    the fresh identifier. *)
Theorem upsert_one_per_question
        (uuid : jsstring) (now : Z) (response : Obj) (responses : Store)
        (q : jsstring) :
  WellFiled responses -> OnePerQuestion responses ->
  get "questionId" response = Some (VStr q) -> get "id" response = None ->
  getComplianceResponse uuid responses = None ->
  let r := fst (upsertComplianceResponse uuid now response responses) in
  let responses' := snd (upsertComplianceResponse uuid now response responses) in
  WellFiled responses' /\ OnePerQuestion responses'
  /\ exists a,
      r = Some a
      /\ filter (fun o => strict_eq (get "questionId" o) (Some (VStr q)))
                (getComplianceResponses responses') = [a]
      /\ get "updatedAt" a = Some (VDate now)
      /\ (forall k v, k <> "updatedAt"%string -> get k response = Some v ->
                      get k a = Some v)
      /\ match filter (fun o => strict_eq (get "questionId" o) (Some (VStr q)))
                      (getComplianceResponses responses) with
         | existing :: _ =>
             List.map fst responses' = List.map fst responses
             /\ get "id" a = get "id" existing
         | [] => responses' = responses ++ [(uuid, a)]
                 /\ get "id" a = Some (VStr uuid)
         end.
Proof.
  intros [ND Hid] Hone Hq Hnoid Hfresh. cbv zeta.
  unfold upsertComplianceResponse, getComplianceResponse,
    getComplianceResponses in *.
  rewrite Hq.
  assert (Hfind : forall l : list Obj,
             List.find (fun o => strict_eq (get "questionId" o) (Some (VStr q))) l
             = hd_error (filter (fun o => strict_eq (get "questionId" o)
                                                    (Some (VStr q))) l)).
  { induction l as [| x l IH]; simpl; [reflexivity |].
    destruct (strict_eq (get "questionId" x) (Some (VStr q))); [reflexivity | exact IH]. }
  rewrite Hfind.
  destruct (filter (fun o => strict_eq (get "questionId" o) (Some (VStr q)))
                   (values responses)) as [| existing rest] eqn:Ef.
  - (* a new response *)
    simpl. rewrite (@m_set_fresh uuid _ responses Hfresh).
    set (a := set "updatedAt" (VDate now)
                  (spread [("id"%string, VStr uuid)] response)).
    assert (Hqa : get "questionId" a = Some (VStr q)).
    { unfold a. rewrite get_set. simpl. now rewrite get_spread, Hq. }
    assert (Hida : get "id" a = Some (VStr uuid)).
    { unfold a. rewrite get_set. simpl. now rewrite get_spread, Hnoid. }
    assert (Hnone : forall o, In o (values responses) ->
                              strict_eq (get "questionId" o) (Some (VStr q)) = false).
    { intros o Ho.
      destruct (strict_eq (get "questionId" o) (Some (VStr q))) eqn:E;
        [| reflexivity].
      assert (Hin : In o (filter (fun o => strict_eq (get "questionId" o)
                                                     (Some (VStr q)))
                                 (values responses))).
      { apply filter_In. now split. }
      rewrite Ef in Hin. destruct Hin. }
    assert (W' : WellFiled (responses ++ [(uuid, a)])).
    { split.
      - rewrite map_app. simpl. apply NoDup_app; [exact ND | |].
        + repeat constructor. intros [].
        + intros k Hk [<- | []]. now apply m_get_None in Hfresh.
      - intros k o Hin. apply in_app_or in Hin as [Hin | [E | []]].
        + now apply Hid.
        + inversion E; subst. exact Hida. }
    assert (O' : OnePerQuestion (responses ++ [(uuid, a)])).
    { unfold OnePerQuestion, values in *. rewrite map_app. simpl.
      apply pairs_snoc; [exact Hone |].
      apply Forall_forall. intros o Ho. rewrite Hqa. now apply Hnone. }
    split; [exact W' |]. split; [exact O' |].
    exists a. split; [reflexivity |]. split.
    { apply only_answer; [exact O' | | exact Hqa].
      unfold values. rewrite map_app. apply in_or_app. right. now left. }
    split; [reflexivity |]. split.
    { intros k v Hk Hv. unfold a. rewrite get_set.
      destruct (String.eqb_spec "updatedAt" k) as [<- | _]; [congruence |].
      now rewrite get_spread, Hv. }
    split; [reflexivity | exact Hida].
  - (* the question was answered before *)
    simpl hd_error. cbv iota.
    assert (Hex : In existing (values responses)
                  /\ get "questionId" existing = Some (VStr q)).
    { assert (Hin : In existing (filter (fun o => strict_eq (get "questionId" o)
                                                            (Some (VStr q)))
                                        (values responses)))
        by (rewrite Ef; now left).
      apply filter_In in Hin as [H1 H2]. split; [exact H1 |].
      now apply strict_eq_str. }
    destruct Hex as [Hin Hqe].
    apply in_map_iff in Hin as ([k o] & Eo & Hin). simpl in Eo. subst o.
    pose proof (Hid k existing Hin) as Hide.
    pose proof (@In_m_get k existing responses ND Hin) as Hget.
    unfold updateComplianceResponse. rewrite Hide. simpl m_get_val.
    rewrite Hget. simpl.
    set (a := set "updatedAt" (VDate now) (spread existing response)).
    assert (Hqa : get "questionId" a = Some (VStr q)).
    { unfold a. rewrite get_set. simpl. now rewrite get_spread, Hq. }
    assert (Hida : get "id" a = Some (VStr k)).
    { unfold a. rewrite get_set. simpl. now rewrite get_spread, Hnoid. }
    assert (Hkeys : List.map fst (m_set k a responses) = List.map fst responses).
    { now apply (@m_set_keys_present k a existing responses). }
    assert (W' : WellFiled (m_set k a responses)).
    { split; [now rewrite Hkeys |].
      intros k' o Ho. apply In_m_set in Ho as [[-> ->] | Ho];
        [exact Hida | now apply Hid]. }
    assert (O' : OnePerQuestion (m_set k a responses)).
    { unfold OnePerQuestion in *.
      apply (pairs_map (get "questionId")
               (fun x y => strict_eq x y = false)).
      rewrite (@m_set_same_reading _ (get "questionId") k a existing responses
                 Hget); [| now rewrite Hqa, Hqe].
      now apply (pairs_map (get "questionId")
                   (fun x y => strict_eq x y = false)). }
    split; [exact W' |]. split; [exact O' |].
    exists a. split; [reflexivity |]. split.
    { apply only_answer; [exact O' | | exact Hqa].
      apply in_map_iff. exists (k, a). split; [reflexivity |].
      apply m_get_In. apply m_get_set_same. }
    split; [reflexivity |]. split.
    { intros k' v Hk Hv. unfold a. rewrite get_set.
      destruct (String.eqb_spec "updatedAt" k') as [<- | _]; [congruence |].
      now rewrite get_spread, Hv. }
    split; [exact Hkeys | exact Hida].
Qed.

Lemma upsert_one_per_question_witness :
  WellFiled sampleAnswers /\ OnePerQuestion sampleAnswers
  /\ exists a,
      fst (upsertComplianceResponse (js "r9") 1000
             [("questionId"%string, VStr (js "q2"));
              ("status"%string, VStr (js "Compliant"))] sampleAnswers) = Some a
      /\ get "id" a = Some (VStr (js "r2"))
      /\ get "status" a = Some (VStr (js "Compliant")).
Proof.
  assert (W : WellFiled sampleAnswers).
  { split.
    - repeat constructor; simpl; intuition discriminate.
    - intros k o [E | [E | []]]; inversion E; reflexivity. }
  assert (O : OnePerQuestion sampleAnswers).
  { repeat constructor. }
  split; [exact W |]. split; [exact O |].
  destruct (@upsert_one_per_question (js "r9") 1000
              [("questionId"%string, VStr (js "q2"));
               ("status"%string, VStr (js "Compliant"))] sampleAnswers (js "q2")
              W O eq_refl eq_refl eq_refl) as (_ & _ & a & E & _ & _ & Hk & Hm).
  exists a. split; [exact E |]. split.
  - change (filter (fun o => strict_eq (get "questionId" o) (Some (VStr (js "q2"))))
                   (getComplianceResponses sampleAnswers))
      with [sampleAnswer "r2" "q2" "Non-Compliant"] in Hm.
    cbv iota beta in Hm. destruct Hm as [_ Hm]. rewrite Hm. reflexivity.
  - apply Hk; [discriminate | reflexivity].
Defined.

End MemFacts.
